(** * ICO container writer and reader of [src/ico-editor.js]

    A shallow embedding of the [IcoEditor] class: the header and directory
    encoders and decoders over a Node [Buffer], the size filter, and
    [write] with its promise chain run on a small model of the event loop. *)

From Stdlib Require Import ZArith Lia.
From stdpp Require Import base numbers option list strings gmap.

Local Open Scope Z_scope.

(** ** JavaScript values, errors and abrupt completion *)

Module Js.

(** The constructor an error object was built with. [SystemError] stands
    for the errors [fs] raises (their [code] is kept in the message). *)
Inductive ErrorClass := PlainError | TypeError | RangeError | SystemError.

Record Error := mkError { errClass : ErrorClass; message : string }.

(** A call either returns a value or throws. *)
Inductive Completion (A : Type) :=
| Normal (a : A)
| Throw (e : Error).
Arguments Normal {A} a.
Arguments Throw {A} e.

Definition bind {A B} (c : Completion A) (k : A -> Completion B) : Completion B :=
  match c with
  | Normal a => k a
  | Throw e => Throw e
  end.

(** [x >>> 0] *)
Definition toUint32 (x : Z) : Z := x mod 2 ^ 32.

(** The double quote, for messages that contain one. *)
Definition dq : string := String (Ascii.ascii_of_nat 34) EmptyString.

End Js.

Import Js.

#[global] Instance Completion_ret : MRet Completion := @Normal.
#[global] Instance Completion_bind : MBind Completion :=
  fun A B k c => Js.bind c k.

(** ** Node's [Buffer]: bounds-checked little-endian accessors

    A buffer is its sequence of bytes, each in [0, 256). The accessors follow
    [lib/buffer.js] of the Node releases that offer [new Buffer(size)]: the
    offset is coerced with [>>> 0], the write methods run [checkInt] (value
    range, then room for [ext] bytes), the read methods run [checkOffset],
    and both throw instead of reading or writing outside the buffer. A byte
    store keeps the low eight bits of the value. Numbers are integers: pixel
    sizes, byte counts and offsets. *)

Module Buffer.

Abbreviation t := (list Z) (only parsing).

(** [this[i]] for an index the check has accepted. *)
Definition get (buf : t) (i : Z) : Z := default 0 (buf !! Z.to_nat i).

(** [this[i] = v] on a [Uint8Array]: the value is reduced modulo 256. *)
Definition set (buf : t) (i : Z) (v : Z) : t :=
  <[Z.to_nat i := Z.land v 255]> buf.

Definition length (buf : t) : Z := Z.of_nat (List.length buf).

Definition checkInt (buf : t) (value offset ext max min : Z) : Completion unit :=
  if (max <? value) || (value <? min)
  then Throw (mkError TypeError (dq +:+ "value" +:+ dq +:+ " argument is out of bounds"))
  else if length buf <? offset + ext
  then Throw (mkError RangeError "Index out of range")
  else Normal tt.

Definition checkOffset (offset ext len : Z) : Completion unit :=
  if len <? offset + ext
  then Throw (mkError RangeError "Index out of range")
  else Normal tt.

Definition writeUInt8 (buf : t) (value offset : Z) : Completion t :=
  let offset := toUint32 offset in
  checkInt buf value offset 1 255 0;;
  Normal (set buf offset value).

Definition writeUInt16LE (buf : t) (value offset : Z) : Completion t :=
  let offset := toUint32 offset in
  checkInt buf value offset 2 65535 0;;
  let buf := set buf offset value in
  let buf := set buf (offset + 1) (Z.shiftr value 8) in
  Normal buf.

Definition writeUInt32LE (buf : t) (value offset : Z) : Completion t :=
  let offset := toUint32 offset in
  checkInt buf value offset 4 4294967295 0;;
  let buf := set buf (offset + 3) (Z.shiftr value 24) in
  let buf := set buf (offset + 2) (Z.shiftr value 16) in
  let buf := set buf (offset + 1) (Z.shiftr value 8) in
  let buf := set buf offset value in
  Normal buf.

Definition readUInt8 (buf : t) (offset : Z) : Completion Z :=
  let offset := toUint32 offset in
  checkOffset offset 1 (length buf);;
  Normal (get buf offset).

Definition readUInt16LE (buf : t) (offset : Z) : Completion Z :=
  let offset := toUint32 offset in
  checkOffset offset 2 (length buf);;
  Normal (Z.lor (get buf offset) (Z.shiftl (get buf (offset + 1)) 8)).

Definition readUInt32LE (buf : t) (offset : Z) : Completion Z :=
  let offset := toUint32 offset in
  checkOffset offset 4 (length buf);;
  Normal (Z.lor (Z.lor (get buf offset)
                       (Z.shiftl (get buf (offset + 1)) 8))
                (Z.shiftl (get buf (offset + 2)) 16)
          + get buf (offset + 3) * 16777216).

(** [new Buffer(n)]: [n] bytes of whatever the allocator's memory holds
    ([heap k] is the cell that becomes byte [k]). *)
Definition alloc (heap : nat -> Z) (n : Z) : t :=
  map (fun k => heap k mod 256) (seq 0 (Z.to_nat n)).

End Buffer.

(** ** Constants of the module *)

Definition IcoImageSizes : list Z := [16; 24; 32; 48; 64; 128; 256].

Module IcoSpec.
Definition headerSize : Z := 6.
Definition directorySize : Z := 16.
End IcoSpec.

(** ** Records *)

(** [fs.Stats]: the byte size, and [isDirectory], which is a method. *)
Module Stats.
Record t := mk { size : Z; isDirectory : unit -> bool }.
End Stats.

(** An element of [targets]: pixel size, path of the PNG, and its [stat]. *)
Module ImageInfo.
Record t := mk { size : Z; path : string; stat : Stats.t }.
End ImageInfo.

Module ICOHeader.
Record t := mk { reserved : Z; type : Z; count : Z }.
End ICOHeader.

Module ICODirectory.
Record t := mk {
  width : Z; height : Z; colors : Z; reserved : Z;
  planes : Z; bpp : Z; size : Z; offset : Z
}.
End ICODirectory.

(** ** Truthiness of the values [write] tests *)

Inductive Value :=
| VUndefined
| VNull
| VBoolean (b : bool)
| VNumber (n : Z)
| VStats (s : Stats.t)
| VFunction (f : unit -> bool).

Definition ToBoolean (v : Value) : bool :=
  match v with
  | VUndefined | VNull => false
  | VBoolean b => b
  | VNumber n => negb (n =? 0)
  | VStats _ | VFunction _ => true
  end.

(** [a && b] *)
Definition js_and (a b : Value) : Value := if ToBoolean a then b else a.

(** [!a] *)
Definition js_not (a : Value) : bool := negb (ToBoolean a).

(** ** What the caller and the platform supply to one call of [write] *)

Record Env := mkEnv {
  dirname : string -> string;                 (* Path.dirname *)
  statSync : string -> Completion Stats.t;    (* Fs.statSync: a Stats, or it throws *)
  readFile : string -> Completion Buffer.t;   (* what Fs.readFile hands its callback *)
  heap : nat -> Z;                            (* the memory new Buffer returns *)
  schedule : list nat;                        (* which outstanding read completes next *)
  cb : option Error -> Completion unit;       (* the callback, called with or without err *)
  streamError : string -> option Error;       (* the error the write stream of a path emits *)
  errorTurn : nat                             (* how many reads complete before it does *)
}.

(** ** Promises, as [writeImages] uses them

    Every promise of this program is fulfilled with [undefined], so a settled
    state carries a value only when it is a rejection. [then] follows
    PerformPromiseThen: an argument that is not callable is replaced by the
    identity (for fulfilment) or the thrower (for rejection), written [None]
    in a reaction. *)

Module Promise.

Inductive State := Pending | Fulfilled | Rejected (reason : Error).

(** The two function expressions passed to [then] and [catch]. *)
Inductive Closure :=
| OnDone      (* () => { cb(); } *)
| OnError.    (* ( err ) => { cb( err ); } *)

(** An argument of [then]: nothing, a promise object, or a function. *)
Inductive Arg := AUndefined | APromise (p : nat) | AFunction (f : Closure).

Definition IsCallable (a : Arg) : option Closure :=
  match a with
  | AFunction f => Some f
  | AUndefined | APromise _ => None
  end.

Record Reaction := mkReaction {
  onFulfilled : option Closure;
  onRejected : option Closure;
  derived : nat
}.

Record Cell := mkCell { state : State; reactions : list Reaction }.

(** A reaction job: the reaction and the state its promise settled in. *)
Record Job := mkJob { reaction : Reaction; settled : State }.

End Promise.

(** ** The state of one run: promise heap, job queue, outstanding reads,
       the write stream with the chunks handed to it, the calls the
       callback has received, and the exception that ended the process,
       if one was left uncaught *)

Record Loop := mkLoop {
  promises : gmap nat Promise.Cell;
  nextId : nat;
  microtasks : list Promise.Job;
  reads : list (string * nat);
  stream : option (string * list Buffer.t);
  calls : list (option Error);
  uncaught : option Error
}.

Definition emptyLoop : Loop := mkLoop ∅ 0 [] [] None [] None.

Definition setPromises (f : gmap nat Promise.Cell -> gmap nat Promise.Cell) (st : Loop) : Loop :=
  mkLoop (f (promises st)) (nextId st) (microtasks st) (reads st) (stream st) (calls st)
         (uncaught st).
Definition setNextId (n : nat) (st : Loop) : Loop :=
  mkLoop (promises st) n (microtasks st) (reads st) (stream st) (calls st) (uncaught st).
Definition setMicrotasks (q : list Promise.Job) (st : Loop) : Loop :=
  mkLoop (promises st) (nextId st) q (reads st) (stream st) (calls st) (uncaught st).
Definition setReads (r : list (string * nat)) (st : Loop) : Loop :=
  mkLoop (promises st) (nextId st) (microtasks st) r (stream st) (calls st) (uncaught st).
Definition setStream (s : option (string * list Buffer.t)) (st : Loop) : Loop :=
  mkLoop (promises st) (nextId st) (microtasks st) (reads st) s (calls st) (uncaught st).
Definition setCalls (c : list (option Error)) (st : Loop) : Loop :=
  mkLoop (promises st) (nextId st) (microtasks st) (reads st) (stream st) c (uncaught st).
Definition setUncaught (e : option Error) (st : Loop) : Loop :=
  mkLoop (promises st) (nextId st) (microtasks st) (reads st) (stream st) (calls st) e.

(** Synchronous code: it changes the state and returns or throws. *)
Definition IO (A : Type) : Type := Loop -> Completion A * Loop.

#[global] Instance IO_ret : MRet IO := fun A a st => (Normal a, st).
#[global] Instance IO_bind : MBind IO := fun A B k m st =>
  match m st with
  | (Normal a, st') => k a st'
  | (Throw e, st') => (Throw e, st')
  end.

Definition liftC {A} (c : Completion A) : IO A := fun st => (c, st).
Definition modify (f : Loop -> Loop) : IO unit := fun st => (Normal tt, f st).
Definition gets {A} (f : Loop -> A) : IO A := fun st => (Normal (f st), st).

(** [try { m } catch (e) { ... }]: the completion as a value. *)
Definition attempt {A} (m : IO A) : IO (Completion A) := fun st =>
  let (c, st') := m st in (Normal c, st').

Module Runtime.

Import Promise.

(** A fresh promise object in state [s]. *)
Definition newPromise (s : State) : IO nat :=
  p ← gets nextId;
  modify (fun st => setNextId (S p) (setPromises <[p := mkCell s []]> st));;
  mret p.

Definition enqueue (jobs : list Job) : IO unit :=
  modify (fun st => setMicrotasks (microtasks st ++ jobs) st).

(** The resolving functions of a promise: the first call settles it and
    queues one job per registered reaction, later calls do nothing. *)
Definition settle (p : nat) (outcome : State) : IO unit :=
  cell ← gets (fun st => promises st !! p);
  match cell with
  | Some (mkCell Pending rs) =>
      modify (setPromises <[p := mkCell outcome []]>);;
      enqueue (map (fun r => mkJob r outcome) rs)
  | _ => mret tt
  end.

(** [p.then(onF, onR)] *)
Definition then_ (p : nat) (onF onR : Arg) : IO nat :=
  q ← newPromise Pending;
  let r := mkReaction (IsCallable onF) (IsCallable onR) q in
  cell ← gets (fun st => promises st !! p);
  match cell with
  | Some (mkCell Pending rs) =>
      modify (setPromises <[p := mkCell Pending (rs ++ [r])]>)
  | Some (mkCell s _) => enqueue [mkJob r s]
  | None => mret tt
  end;;
  mret q.

(** [p.catch(onR)] is [p.then(undefined, onR)]. *)
Definition catch_ (p : nat) (onR : Arg) : IO nat := then_ p AUndefined onR.

(** [Fs.readFile(path, callback)]: the read is started; its callback,
    which settles promise [p], runs when the read completes. *)
Definition fsReadFile (path : string) (p : nat) : IO unit :=
  modify (fun st => setReads (reads st ++ [(path, p)]) st).

(** [Fs.createWriteStream(dest)]: the stream object exists at once; the
    file is opened later, and what is written before is queued. Whether the
    stream comes to emit an error is the environment's [streamError]. *)
Definition createWriteStream (dest : string) : IO unit :=
  modify (setStream (Some (dest, []))).

(** [stream.write(chunk, 'binary')]: the chunk joins the stream's queue. *)
Definition streamWrite (chunk : Buffer.t) : IO unit :=
  modify (fun st => match stream st with
                    | Some (dest, chunks) => setStream (Some (dest, chunks ++ [chunk])) st
                    | None => st
                    end).

End Runtime.

(** ** The methods of [IcoEditor] *)

Module IcoEditor.

Definition writeHeader (buffer : Buffer.t) (type count : Z) : Completion Buffer.t :=
  buffer ← Buffer.writeUInt16LE buffer 0 0;
  buffer ← Buffer.writeUInt16LE buffer type 2;
  Buffer.writeUInt16LE buffer count 4.

Definition writeDirectory (buffer : Buffer.t) (offset : Z) (directory : ICODirectory.t)
  : Completion Buffer.t :=
  buffer ← Buffer.writeUInt8 buffer (ICODirectory.width directory) offset;
  buffer ← Buffer.writeUInt8 buffer (ICODirectory.height directory) (offset + 1);
  buffer ← Buffer.writeUInt8 buffer (ICODirectory.colors directory) (offset + 2);
  buffer ← Buffer.writeUInt8 buffer 0 (offset + 3);
  buffer ← Buffer.writeUInt16LE buffer (ICODirectory.planes directory) (offset + 4);
  buffer ← Buffer.writeUInt16LE buffer (ICODirectory.bpp directory) (offset + 6);
  buffer ← Buffer.writeUInt32LE buffer (ICODirectory.size directory) (offset + 8);
  Buffer.writeUInt32LE buffer (ICODirectory.offset directory) (offset + 12).

Definition readHeader (buffer : Buffer.t) : Completion ICOHeader.t :=
  reserved ← Buffer.readUInt16LE buffer 0;
  type ← Buffer.readUInt16LE buffer 2;
  count ← Buffer.readUInt16LE buffer 4;
  Normal (ICOHeader.mk reserved type count).

(** [width] is read at the fixed offset 0, as the source has it. *)
Definition readDirectory (buffer : Buffer.t) (offset : Z) : Completion ICODirectory.t :=
  width ← Buffer.readUInt8 buffer 0;
  height ← Buffer.readUInt8 buffer (offset + 1);
  colors ← Buffer.readUInt8 buffer (offset + 2);
  reserved ← Buffer.readUInt8 buffer (offset + 3);
  planes ← Buffer.readUInt16LE buffer (offset + 4);
  bpp ← Buffer.readUInt16LE buffer (offset + 6);
  size ← Buffer.readUInt32LE buffer (offset + 8);
  offset' ← Buffer.readUInt32LE buffer (offset + 12);
  Normal (ICODirectory.mk width height colors reserved planes bpp size offset').

(** The object literal [writeDirectories] builds for one target. *)
Definition directoryOf (target : ImageInfo.t) (imgOffset : Z) : ICODirectory.t :=
  {| ICODirectory.width := if 256 <=? ImageInfo.size target then 0 else ImageInfo.size target;
     ICODirectory.height := if 256 <=? ImageInfo.size target then 0 else ImageInfo.size target;
     ICODirectory.colors := 0;
     ICODirectory.reserved := 0;
     ICODirectory.planes := 1;
     ICODirectory.bpp := 32;
     ICODirectory.size := Stats.size (ImageInfo.stat target);
     ICODirectory.offset := imgOffset |}.

(** The variables the [forEach] callback of [writeDirectories] closes over. *)
Record DirState := mkDirState {
  dsBuffer : Buffer.t; dirOffset : Z; imgOffset : Z
}.

(** One call of the [forEach] callback. *)
Definition writeDirectoriesBody (st : DirState) (target : ImageInfo.t) : Completion DirState :=
  buffer ← writeDirectory (dsBuffer st) (dirOffset st) (directoryOf target (imgOffset st));
  Normal (mkDirState buffer
                     (dirOffset st + IcoSpec.directorySize)
                     (imgOffset st + Stats.size (ImageInfo.stat target))).

(** [Array.prototype.forEach] with a callback that may throw. *)
Fixpoint forEach {S A} (f : S -> A -> Completion S) (l : list A) (s : S) : Completion S :=
  match l with
  | [] => Normal s
  | a :: l' => s' ← f s a; forEach f l' s'
  end.

Definition writeDirectories (buffer : Buffer.t) (targets : list ImageInfo.t)
  : Completion Buffer.t :=
  let dirOffset := IcoSpec.headerSize in
  let imgOffset := IcoSpec.headerSize
                   + IcoSpec.directorySize * Z.of_nat (List.length targets) in
  st ← forEach writeDirectoriesBody targets (mkDirState buffer dirOffset imgOffset);
  Normal (dsBuffer st).

(** Lines 53 to 55 of [write]: the header and directory block. *)
Definition headerBlock (heap : nat -> Z) (targets : list ImageInfo.t) : Completion Buffer.t :=
  let buffer := Buffer.alloc heap (IcoSpec.headerSize
                  + IcoSpec.directorySize * Z.of_nat (List.length targets)) in
  buffer ← writeHeader buffer 1 (Z.of_nat (List.length targets));
  writeDirectories buffer targets.

(** [Array.prototype.some]: stops at the first element the callback
    accepts. The callback updates the variable it closes over. *)
Fixpoint some {S A} (f : S -> A -> S * bool) (l : list A) (s : S) : S * bool :=
  match l with
  | [] => (s, false)
  | a :: l' => let (s', hit) := f s a in
               if hit then (s', true) else some f l' s'
  end.

(** [images] is [None] for [null] or [undefined]. *)
Definition filter (images : option (list ImageInfo.t)) : list ImageInfo.t :=
  match images with
  | None => []
  | Some images =>
      if negb (0 <? Z.of_nat (List.length images)) then []
      else List.filter (fun image =>
             let exists_ := false in
             let (exists_, _) :=
               some (fun exists_ size =>
                       if ImageInfo.size image =? size then (true, true)
                       else (exists_, false))
                    IcoImageSizes exists_ in
             exists_) images
  end.

Definition errNoImages : Error :=
  mkError PlainError
    ("Invalid arguments: It does not contain the information necessary for the "
     +:+ dq +:+ "images" +:+ dq +:+ ".").

Definition errNoParent : Error :=
  mkError PlainError
    ("Invalid arguments: " +:+ dq +:+ "dest" +:+ dq
     +:+ " of the parent directory does not exist.").

(** A call of [cb]: recorded, and it returns or throws as [cb] does. *)
Definition callCb (env : Env) (err : option Error) : IO unit := fun st =>
  (cb env err, setCalls (calls st ++ [err]) st).

(** [writeImage]: the executor of [new Promise] runs at once and starts
    the read. *)
Definition writeImage (target : ImageInfo.t) : IO nat :=
  p ← Runtime.newPromise Promise.Pending;
  Runtime.fsReadFile (ImageInfo.path target) p;;
  mret p.

(** The callback [writeImage] gives [Fs.readFile], for the promise [p]. *)
Definition onRead (p : nat) (result : Completion Buffer.t) : IO unit :=
  match result with
  | Throw err => Runtime.settle p (Promise.Rejected err)
  | Normal data =>
      Runtime.streamWrite data;;
      Runtime.settle p Promise.Fulfilled
  end.

(** [Array.prototype.map] and [reduce] with effectful callbacks. *)
Fixpoint mapIO {A B} (f : A -> IO B) (l : list A) : IO (list B) :=
  match l with
  | [] => mret []
  | a :: l' => b ← f a; bs ← mapIO f l'; mret (b :: bs)
  end.

Fixpoint reduce {A B} (f : B -> A -> IO B) (l : list A) (acc : B) : IO B :=
  match l with
  | [] => mret acc
  | a :: l' => acc' ← f acc a; reduce f l' acc'
  end.

Definition writeImages (env : Env) (targets : list ImageInfo.t) : IO unit :=
  tasks ← mapIO writeImage targets;
  start ← Runtime.newPromise Promise.Fulfilled;
  chain ← reduce (fun prev current =>
                    Runtime.then_ prev (Promise.APromise current) Promise.AUndefined)
                 tasks start;
  finished ← Runtime.then_ chain (Promise.AFunction Promise.OnDone) Promise.AUndefined;
  Runtime.catch_ finished (Promise.AFunction Promise.OnError);;
  mret tt.

(** The test [!( stat && stat.isDirectory )]: [isDirectory] is named,
    not called. *)
Definition parentMissing (stat : Stats.t) : bool :=
  js_not (js_and (VStats stat) (VFunction (Stats.isDirectory stat))).

Definition write (env : Env) (targets : list ImageInfo.t) (dest : string) : IO unit :=
  if js_not (VNumber (Z.of_nat (List.length targets))) then
    callCb env (Some errNoImages)
  else
    let dirname := dirname env dest in
    stat ← liftC (statSync env dirname);
    if parentMissing stat then
      callCb env (Some errNoParent)
    else
      buffer ← liftC (headerBlock (heap env) targets);
      Runtime.createWriteStream dest;;
      Runtime.streamWrite buffer;;
      writeImages env targets.

End IcoEditor.

(** ** The event loop: reaction jobs first, then one completed read at a time *)

Module EventLoop.

Import Promise.

Definition callClosure (env : Env) (f : Closure) (arg : option Error) : IO unit :=
  match f with
  | OnDone => IcoEditor.callCb env None
  | OnError => IcoEditor.callCb env arg
  end.

(** PromiseReactionJob: run the handler for the settled state; the
    derived promise is fulfilled when the handler returns and rejected
    with what it throws. *)
Definition runJob (env : Env) (j : Job) : IO unit :=
  let r := reaction j in
  match settled j with
  | Pending => mret tt
  | Fulfilled =>
      match onFulfilled r with
      | None => Runtime.settle (derived r) Fulfilled
      | Some f =>
          c ← attempt (callClosure env f None);
          match c with
          | Normal _ => Runtime.settle (derived r) Fulfilled
          | Throw e => Runtime.settle (derived r) (Rejected e)
          end
      end
  | Rejected reason =>
      match onRejected r with
      | None => Runtime.settle (derived r) (Rejected reason)
      | Some f =>
          c ← attempt (callClosure env f (Some reason));
          match c with
          | Normal _ => Runtime.settle (derived r) Fulfilled
          | Throw e => Runtime.settle (derived r) (Rejected e)
          end
      end
  end.

(** Run queued jobs, oldest first, until none is left. *)
Fixpoint drain (env : Env) (fuel : nat) (st : Loop) : Loop :=
  match fuel with
  | O => st
  | S fuel' =>
      match microtasks st with
      | [] => st
      | j :: rest => drain env fuel' (runJob env j (setMicrotasks rest st)).2
      end
  end.

(** Every job settles the promise its reaction derived, and a promise
    settles once: no drain runs more jobs than there are promises. *)
Definition drainAll (env : Env) (st : Loop) : Loop :=
  drain env (nextId st + List.length (microtasks st)) st.

(** The [k]-th outstanding read (modulo their number) completes: its
    callback runs, then the jobs it queued. *)
Definition complete (env : Env) (k : nat) (st : Loop) : Loop :=
  let i := (k mod List.length (reads st))%nat in
  match reads st !! i with
  | Some (path, p) =>
      drainAll env
        (IcoEditor.onRead p (readFile env path) (setReads (delete i (reads st)) st)).2
  | None => st
  end.

(** Reads complete in the order the schedule picks; once the schedule is
    used up, the oldest outstanding read completes next. *)
Fixpoint completeAll (env : Env) (n : nat) (sched : list nat) (st : Loop) : Loop :=
  match n with
  | O => st
  | S n' => completeAll env n' (tail sched) (complete env (hd 0%nat sched) st)
  end.

(** The error the stream that was opened comes to emit: the destination
    cannot be opened, or a write to it fails. *)
Definition streamFailure (env : Env) (st : Loop) : option Error :=
  match stream st with
  | Some (dest, _) => streamError env dest
  | None => None
  end.

(** A whole run of [main]: its synchronous part, the jobs it queued, and
    then the reads it started, as they complete. When the stream emits an
    error, after [errorTurn] reads, nothing listens for it: it is thrown,
    left uncaught, and the process ends with the remaining reads
    outstanding. *)
Definition run (env : Env) (main : IO unit) : Completion unit * Loop :=
  let (c, st) := main emptyLoop in
  let st := drainAll env st in
  match streamFailure env st with
  | None => (c, completeAll env (List.length (reads st)) (schedule env) st)
  | Some e =>
      (c, setUncaught (Some e)
            (completeAll env (Nat.min (errorTurn env) (List.length (reads st)))
               (schedule env) st))
  end.

End EventLoop.

(** The bytes sent to the destination, if a stream was opened: the chunks
    handed to it, in that order. *)
Definition written (st : Loop) : option Buffer.t :=
  match stream st with
  | Some (_, chunks) => Some (concat chunks)
  | None => None
  end.



(** ** Definitions the statements use *)

(** The sixteen bytes of a directory entry, as [writeDirectory] stores them. *)
Definition encodeDirectory (d : ICODirectory.t) : list Z :=
  let b v := Z.land v 255 in
  [ b (ICODirectory.width d); b (ICODirectory.height d);
    b (ICODirectory.colors d); b 0;
    b (ICODirectory.planes d); b (Z.shiftr (ICODirectory.planes d) 8);
    b (ICODirectory.bpp d); b (Z.shiftr (ICODirectory.bpp d) 8);
    b (ICODirectory.size d); b (Z.shiftr (ICODirectory.size d) 8);
    b (Z.shiftr (ICODirectory.size d) 16); b (Z.shiftr (ICODirectory.size d) 24);
    b (ICODirectory.offset d); b (Z.shiftr (ICODirectory.offset d) 8);
    b (Z.shiftr (ICODirectory.offset d) 16); b (Z.shiftr (ICODirectory.offset d) 24) ].

Definition byteOf (d : ICODirectory.t) (k : Z) : Z :=
  default 0 (encodeDirectory d !! Z.to_nat k).

(** The values [checkInt] lets through. *)
Definition dirInRange (d : ICODirectory.t) : Prop :=
  0 <= ICODirectory.width d <= 255 /\ 0 <= ICODirectory.height d <= 255 /\
  0 <= ICODirectory.colors d <= 255 /\
  0 <= ICODirectory.planes d <= 65535 /\ 0 <= ICODirectory.bpp d <= 65535 /\
  0 <= ICODirectory.size d <= 4294967295 /\ 0 <= ICODirectory.offset d <= 4294967295.

(** Total byte length of a list of targets. *)
Definition sumSizes (l : list ImageInfo.t) : Z :=
  foldr (fun t acc => Stats.size (ImageInfo.stat t) + acc) 0 l.

(** The order in which [EventLoop.completeAll] takes [n] outstanding reads. *)
Fixpoint completionOrder {A} (n : nat) (sched : list nat) (l : list A) : list A :=
  match n with
  | O => []
  | S n' =>
      let i := (hd 0%nat sched mod List.length l)%nat in
      match l !! i with
      | Some x => x :: completionOrder n' (tail sched) (delete i l)
      | None => []
      end
  end.

(** How many of [n] reads complete before the run to [dest] is over. *)
Definition readsCompleted (env : Env) (dest : string) (n : nat) : nat :=
  match streamError env dest with
  | None => n
  | Some _ => Nat.min (errorTurn env) n
  end.

(** The chunks the read callbacks hand to the stream, for reads completing
    in the order [paths]: a failed read contributes nothing. *)
Definition payloads (env : Env) (paths : list string) : list Buffer.t :=
  flat_map (fun p => match readFile env p with
                     | Normal data => [data]
                     | Throw _ => []
                     end) paths.

(** A promise nothing waits on yet, and the reaction of a [then] whose
    arguments are not callable. *)
Definition pendingCell : Promise.Cell := Promise.mkCell Promise.Pending [].
Definition passOn (q : nat) : Promise.Reaction := Promise.mkReaction None None q.

(** The promises [writeImages] leaves behind, for [N] targets and a heap
    that held [n0] promises before: the [N] tasks, on which nothing waits,
    and the chain hanging off [Promise.resolve()]. *)
Definition chained (n0 N : nat) (m : gmap nat Promise.Cell) : Prop :=
  (forall k, (n0 <= k < n0 + N)%nat -> m !! k = Some pendingCell) /\
  (forall i, (i < N - 1)%nat ->
     m !! (n0 + N + 1 + i)%nat
     = Some (Promise.mkCell Promise.Pending [passOn (n0 + N + 1 + i + 1)])) /\
  m !! (n0 + 2 * N)%nat
    = Some (Promise.mkCell Promise.Pending
              [Promise.mkReaction (Some Promise.OnDone) None (n0 + 2 * N + 1)]) /\
  m !! (n0 + 2 * N + 1)%nat
    = Some (Promise.mkCell Promise.Pending
              [Promise.mkReaction None (Some Promise.OnError) (n0 + 2 * N + 2)]) /\
  m !! (n0 + 2 * N + 2)%nat = Some pendingCell.

(** What the callback has been told once the chain has run: [cb()], and
    [cb(e)] after it if that call threw [e]. *)
Definition cbCalls (env : Env) : list (option Error) :=
  None :: match cb env None with
          | Normal _ => []
          | Throw e => [Some e]
          end.

(** Every outstanding read settles a promise of its own, still pending,
    on which nothing waits. *)
Definition readsPending (st : Loop) : Prop :=
  NoDup ((reads st).*2) /\
  forall x, x ∈ reads st -> promises st !! x.2 = Some pendingCell.

(** The errors [write] reports for its arguments: a plain [Error] whose
    message starts with [Invalid arguments:]. *)
Definition isInvalidArguments (e : Error) : bool :=
  match errClass e with
  | PlainError => String.prefix "Invalid arguments:" (message e)
  | _ => false
  end.

(** The sizes the filter keeps, as a test on one size. *)
Definition allowedSize (size : Z) : bool :=
  bool_decide (size ∈ [16; 24; 32; 48; 64; 128; 256]).

(** ** A concrete call, for the examples

    [/tmp] exists and [/missing] does not; [16.png] and [256.png] can be
    read and nothing else can; the callback records its argument and
    returns; the destination can be opened and written. *)

Definition examplePng (sz bytes : Z) (p : string) : ImageInfo.t :=
  ImageInfo.mk sz p (Stats.mk bytes (fun _ => false)).

Definition enoent : Error := mkError SystemError "ENOENT: no such file or directory".

Definition exampleEnv (sched : list nat) : Env :=
  mkEnv (fun dest => if String.eqb dest "/tmp/app.ico" then "/tmp" else "/missing")
        (fun dir => if String.eqb dir "/tmp"
                    then Normal (Stats.mk 4096 (fun _ => true))
                    else Throw enoent)
        (fun p => if String.eqb p "16.png" then Normal [137; 80; 78]
                  else if String.eqb p "256.png" then Normal [71; 13]
                  else Throw enoent)
        (fun _ => 170)
        sched
        (fun _ => Normal tt)
        (fun _ => None)
        0%nat.

Definition exampleTargets : list ImageInfo.t :=
  [examplePng 16 3 "16.png"; examplePng 256 2 "256.png"].

Definition exampleBlock : Buffer.t :=
  [0; 0; 1; 0; 2; 0;
   16; 16; 0; 0; 1; 0; 32; 0; 3; 0; 0; 0; 38; 0; 0; 0;
   0; 0; 0; 0; 1; 0; 32; 0; 2; 0; 0; 0; 41; 0; 0; 0].

(** The fields [checkInt] has to accept for the block of [targets]: the
    count, and for each target its size, its byte length and the offset
    its payload gets. *)
Definition blockFits (targets : list ImageInfo.t) : Prop :=
  Z.of_nat (List.length targets) <= 65535 /\
  forall i t, targets !! i = Some t ->
    0 <= ImageInfo.size t /\
    0 <= Stats.size (ImageInfo.stat t) <= 4294967295 /\
    6 + 16 * Z.of_nat (List.length targets) + sumSizes (take i targets) <= 4294967295.

(** The directory records of [targets], the first payload at [imgOffset]. *)
Fixpoint directoriesFrom (imgOffset : Z) (targets : list ImageInfo.t)
  : list ICODirectory.t :=
  match targets with
  | [] => []
  | t :: rest =>
      IcoEditor.directoryOf t imgOffset
      :: directoriesFrom (imgOffset + Stats.size (ImageInfo.stat t)) rest
  end.

(** The six bytes of a header, as [writeHeader] stores them. *)
Definition encodeHeader (type count : Z) : list Z :=
  [0; 0; Z.land type 255; Z.land (Z.shiftr type 8) 255;
   Z.land count 255; Z.land (Z.shiftr count 8) 255].

(** The file format of the block: header, then one entry per target. *)
Definition encodeBlock (targets : list ImageInfo.t) : list Z :=
  let N := Z.of_nat (List.length targets) in
  encodeHeader 1 N ++ flat_map encodeDirectory (directoriesFrom (6 + 16 * N) targets).

(** A buffer of twenty bytes and a directory record whose [reserved] is
    not 0, for the examples. *)
Definition exampleBytes : Buffer.t :=
  [11; 22; 33; 44; 55; 66; 77; 88; 99; 110; 121; 132; 143; 154; 165; 176; 187; 198; 209; 220].

Definition exampleDirectory : ICODirectory.t := ICODirectory.mk 16 16 0 5 1 32 20 38.

(** A target whose file is announced as 4 GiB long. *)
Definition exampleHuge : list ImageInfo.t := [examplePng 16 4294967296 "16.png"].

(** The example call with a callback that throws when called without an
    error. *)
Definition exampleEnvThrowing : Env :=
  mkEnv (dirname (exampleEnv [])) (statSync (exampleEnv [])) (readFile (exampleEnv []))
        (heap (exampleEnv [])) []
        (fun err => match err with
                    | None => Throw (mkError PlainError "callback failed")
                    | Some _ => Normal tt
                    end)
        (streamError (exampleEnv [])) (errorTurn (exampleEnv [])).



(** A target of 512 pixels. *)
Definition exampleOversize : list ImageInfo.t := [examplePng 512 4 "512.png"].

(** * Proofs *)

(** ** Bytes of a little-endian value *)

Section Bits.

Lemma land_255 v : Z.land v 255 = v mod 256.
Proof. change 255 with (Z.ones 8). rewrite Z.land_ones by lia. reflexivity. Qed.

Lemma byte_range v : 0 <= Z.land v 255 < 256.
Proof. rewrite land_255. apply Z.mod_pos_bound. lia. Qed.

Lemma lor_shiftl_add a b n :
  0 <= n -> 0 <= a < 2 ^ n -> Z.lor a (Z.shiftl b n) = a + b * 2 ^ n.
Proof.
  intros Hn Ha.
  rewrite Z.shiftl_mul_pow2 by lia.
  rewrite <- Z.add_nocarry_lor; [reflexivity|].
  apply Z.bits_inj'. intros k Hk.
  rewrite Z.land_spec, Z.bits_0.
  destruct (Z.lt_ge_cases k n) as [Hlt|Hge].
  - rewrite Z.mul_pow2_bits_low by lia. apply andb_false_r.
  - destruct (Z.eq_dec a 0) as [->|Hne]; [now rewrite Z.bits_0|].
    rewrite (Z.bits_above_log2 a k); [reflexivity|lia|].
    apply Z.lt_le_trans with n; [|lia].
    apply Z.log2_lt_pow2; lia.
Qed.

Lemma le16_join v :
  0 <= v <= 65535 ->
  Z.lor (Z.land v 255) (Z.shiftl (Z.land (Z.shiftr v 8) 255) 8) = v.
Proof.
  intros Hv.
  rewrite lor_shiftl_add by (rewrite ?land_255; try apply Z.mod_pos_bound; lia).
  rewrite !land_255, Z.shiftr_div_pow2 by lia.
  change (2 ^ 8) with 256.
  rewrite (Z.mod_small (v / 256) 256) by (split; [apply Z.div_pos; lia | apply Z.div_lt_upper_bound; lia]).
  pose proof (Z.div_mod v 256). lia.
Qed.

Lemma le32_join v :
  0 <= v <= 4294967295 ->
  Z.lor (Z.lor (Z.land v 255) (Z.shiftl (Z.land (Z.shiftr v 8) 255) 8))
        (Z.shiftl (Z.land (Z.shiftr v 16) 255) 16)
  + Z.land (Z.shiftr v 24) 255 * 16777216 = v.
Proof.
  intros Hv.
  rewrite !land_255, !Z.shiftr_div_pow2 by lia.
  change (2 ^ 8) with 256. change (2 ^ 16) with 65536. change (2 ^ 24) with 16777216.
  assert (H0 : 0 <= v mod 256 < 256) by (apply Z.mod_pos_bound; lia).
  assert (H1 : 0 <= (v / 256) mod 256 < 256) by (apply Z.mod_pos_bound; lia).
  assert (H2 : 0 <= (v / 65536) mod 256 < 256) by (apply Z.mod_pos_bound; lia).
  rewrite (lor_shiftl_add (v mod 256)) by lia.
  rewrite lor_shiftl_add by lia.
  change (2 ^ 8) with 256. change (2 ^ 16) with 65536.
  pose proof (Z.div_mod v 256).
  pose proof (Z.div_mod (v / 256) 256).
  pose proof (Z.div_mod (v / 65536) 256).
  assert (v / 65536 = v / 256 / 256) by (rewrite Z.div_div by lia; reflexivity).
  assert (v / 16777216 = v / 65536 / 256) by (rewrite Z.div_div by lia; reflexivity).
  assert (0 <= v / 16777216 < 256)
    by (split; [apply Z.div_pos; lia | apply Z.div_lt_upper_bound; lia]).
  rewrite (Z.mod_small (v / 16777216) 256) by lia.
  lia.
Qed.

End Bits.

(** ** The accessors of [Buffer] *)

Section BufferLemmas.

Implicit Types buf : Buffer.t.

Lemma length_set buf i v : Buffer.length (Buffer.set buf i v) = Buffer.length buf.
Proof. unfold Buffer.length, Buffer.set. now rewrite length_insert. Qed.

Lemma get_set buf i v j :
  0 <= i < Buffer.length buf -> 0 <= j ->
  Buffer.get (Buffer.set buf i v) j = if j =? i then Z.land v 255 else Buffer.get buf j.
Proof.
  unfold Buffer.length, Buffer.get, Buffer.set. intros Hi Hj.
  destruct (Z.eqb_spec j i) as [->|Hne].
  - rewrite list_lookup_insert_eq by lia. reflexivity.
  - rewrite list_lookup_insert_ne by lia. reflexivity.
Qed.

Lemma toUint32_small x : 0 <= x < 2 ^ 32 -> toUint32 x = x.
Proof. intros. unfold toUint32. now apply Z.mod_small. Qed.

Lemma checkInt_inv buf value offset ext max min u :
  Buffer.checkInt buf value offset ext max min = Normal u ->
  min <= value <= max /\ offset + ext <= Buffer.length buf.
Proof.
  unfold Buffer.checkInt.
  destruct (Z.ltb_spec max value), (Z.ltb_spec value min),
    (Z.ltb_spec (Buffer.length buf) (offset + ext)); simpl; intros; try discriminate; lia.
Qed.

Lemma checkInt_ok buf value offset ext max min :
  min <= value <= max -> offset + ext <= Buffer.length buf ->
  Buffer.checkInt buf value offset ext max min = Normal tt.
Proof.
  unfold Buffer.checkInt. intros.
  destruct (Z.ltb_spec max value), (Z.ltb_spec value min),
    (Z.ltb_spec (Buffer.length buf) (offset + ext)); simpl; try lia; reflexivity.
Qed.

Lemma checkOffset_ok offset ext len :
  offset + ext <= len -> Buffer.checkOffset offset ext len = Normal tt.
Proof.
  unfold Buffer.checkOffset. intros.
  destruct (Z.ltb_spec len (offset + ext)); [lia | reflexivity].
Qed.

Lemma writeUInt8_inv buf v off buf' :
  Buffer.writeUInt8 buf v off = Normal buf' -> 0 <= off < 2 ^ 32 ->
  0 <= v <= 255 /\ off + 1 <= Buffer.length buf /\ buf' = Buffer.set buf off v.
Proof.
  unfold Buffer.writeUInt8. intros H Hoff. rewrite toUint32_small in H by lia.
  destruct (Buffer.checkInt _ _ _ _ _ _) eqn:E; [|discriminate].
  apply checkInt_inv in E. simpl in H. injection H as <-. intuition lia.
Qed.

Lemma writeUInt16LE_inv buf v off buf' :
  Buffer.writeUInt16LE buf v off = Normal buf' -> 0 <= off < 2 ^ 32 ->
  0 <= v <= 65535 /\ off + 2 <= Buffer.length buf /\
  buf' = Buffer.set (Buffer.set buf off v) (off + 1) (Z.shiftr v 8).
Proof.
  unfold Buffer.writeUInt16LE. intros H Hoff. rewrite toUint32_small in H by lia.
  destruct (Buffer.checkInt _ _ _ _ _ _) eqn:E; [|discriminate].
  apply checkInt_inv in E. simpl in H. injection H as <-. intuition lia.
Qed.

Lemma writeUInt32LE_inv buf v off buf' :
  Buffer.writeUInt32LE buf v off = Normal buf' -> 0 <= off < 2 ^ 32 ->
  0 <= v <= 4294967295 /\ off + 4 <= Buffer.length buf /\
  buf' = Buffer.set (Buffer.set (Buffer.set (Buffer.set buf (off + 3) (Z.shiftr v 24))
                                            (off + 2) (Z.shiftr v 16))
                                (off + 1) (Z.shiftr v 8)) off v.
Proof.
  unfold Buffer.writeUInt32LE. intros H Hoff. rewrite toUint32_small in H by lia.
  destruct (Buffer.checkInt _ _ _ _ _ _) eqn:E; [|discriminate].
  apply checkInt_inv in E. simpl in H. injection H as <-. intuition lia.
Qed.

Lemma writeUInt8_ok buf v off :
  0 <= off < 2 ^ 32 -> 0 <= v <= 255 -> off + 1 <= Buffer.length buf ->
  Buffer.writeUInt8 buf v off = Normal (Buffer.set buf off v).
Proof.
  intros. unfold Buffer.writeUInt8. rewrite toUint32_small by lia.
  now rewrite checkInt_ok by lia.
Qed.

Lemma writeUInt16LE_ok buf v off :
  0 <= off < 2 ^ 32 -> 0 <= v <= 65535 -> off + 2 <= Buffer.length buf ->
  Buffer.writeUInt16LE buf v off
  = Normal (Buffer.set (Buffer.set buf off v) (off + 1) (Z.shiftr v 8)).
Proof.
  intros. unfold Buffer.writeUInt16LE. rewrite toUint32_small by lia.
  now rewrite checkInt_ok by lia.
Qed.

Lemma writeUInt32LE_ok buf v off :
  0 <= off < 2 ^ 32 -> 0 <= v <= 4294967295 -> off + 4 <= Buffer.length buf ->
  Buffer.writeUInt32LE buf v off
  = Normal (Buffer.set (Buffer.set (Buffer.set (Buffer.set buf (off + 3) (Z.shiftr v 24))
                                               (off + 2) (Z.shiftr v 16))
                                   (off + 1) (Z.shiftr v 8)) off v).
Proof.
  intros. unfold Buffer.writeUInt32LE. rewrite toUint32_small by lia.
  now rewrite checkInt_ok by lia.
Qed.

Lemma readUInt8_ok buf off :
  0 <= off < 2 ^ 32 -> off + 1 <= Buffer.length buf ->
  Buffer.readUInt8 buf off = Normal (Buffer.get buf off).
Proof.
  intros. unfold Buffer.readUInt8. rewrite toUint32_small by lia.
  now rewrite checkOffset_ok by lia.
Qed.

Lemma readUInt16LE_ok buf off :
  0 <= off < 2 ^ 32 -> off + 2 <= Buffer.length buf ->
  Buffer.readUInt16LE buf off
  = Normal (Z.lor (Buffer.get buf off) (Z.shiftl (Buffer.get buf (off + 1)) 8)).
Proof.
  intros. unfold Buffer.readUInt16LE. rewrite toUint32_small by lia.
  now rewrite checkOffset_ok by lia.
Qed.

Lemma readUInt32LE_ok buf off :
  0 <= off < 2 ^ 32 -> off + 4 <= Buffer.length buf ->
  Buffer.readUInt32LE buf off
  = Normal (Z.lor (Z.lor (Buffer.get buf off) (Z.shiftl (Buffer.get buf (off + 1)) 8))
                  (Z.shiftl (Buffer.get buf (off + 2)) 16)
            + Buffer.get buf (off + 3) * 16777216).
Proof.
  intros. unfold Buffer.readUInt32LE. rewrite toUint32_small by lia.
  now rewrite checkOffset_ok by lia.
Qed.

Lemma length_alloc heap n : 0 <= n -> Buffer.length (Buffer.alloc heap n) = n.
Proof.
  intros. unfold Buffer.length, Buffer.alloc.
  rewrite length_map, length_seq. lia.
Qed.

End BufferLemmas.

(** ** One directory entry *)

Lemma bind_Normal {A B} (c : Completion A) (k : A -> Completion B) r :
  c ≫= k = Normal r -> exists a, c = Normal a /\ k a = Normal r.
Proof. destruct c; simpl; intros; [eauto | discriminate]. Qed.

Ltac bind_inv H :=
  let a := fresh "b" in
  let E := fresh "E" in
  apply bind_Normal in H; destruct H as (a & E & H).

Ltac decide_ifs :=
  repeat match goal with
    | |- context [Z.eqb ?a ?b] => destruct (Z.eqb_spec a b); try lia
    | |- context [Z.leb ?a ?b] => destruct (Z.leb_spec a b); try lia
    | |- context [Z.ltb ?a ?b] => destruct (Z.ltb_spec a b); try lia
    end.

Section Directory.

Implicit Types (buf : Buffer.t) (d : ICODirectory.t).

Lemma writeDirectory_inv buf off d buf' :
  IcoEditor.writeDirectory buf off d = Normal buf' ->
  0 <= off -> off + 16 < 2 ^ 32 ->
  dirInRange d /\ off + 16 <= Buffer.length buf /\
  Buffer.length buf' = Buffer.length buf /\
  forall j, 0 <= j ->
    Buffer.get buf' j
    = if (off <=? j) && (j <? off + 16) then byteOf d (j - off) else Buffer.get buf j.
Proof.
  unfold IcoEditor.writeDirectory. intros H Hoff Hmax.
  do 7 bind_inv H.
  apply writeUInt8_inv in E as (? & ? & ->); [|lia].
  apply writeUInt8_inv in E0 as (? & ? & ->); [|lia].
  apply writeUInt8_inv in E1 as (? & ? & ->); [|lia].
  apply writeUInt8_inv in E2 as (? & ? & ->); [|lia].
  apply writeUInt16LE_inv in E3 as (? & ? & ->); [|lia].
  apply writeUInt16LE_inv in E4 as (? & ? & ->); [|lia].
  apply writeUInt32LE_inv in E5 as (? & ? & ->); [|lia].
  apply writeUInt32LE_inv in H as (? & ? & ->); [|lia].
  rewrite !length_set in *.
  split; [unfold dirInRange; lia|].
  split; [lia|]. split; [reflexivity|].
  intros j Hj.
  rewrite !get_set by (rewrite ?length_set; lia).
  destruct (decide (off <= j < off + 16)) as [Hin|Hout].
  - assert (Hk : exists k, j = off + k /\ 0 <= k < 16) by (exists (j - off); lia).
    destruct Hk as (k & -> & Hk).
    replace (off + k - off) with k by lia.
    assert (Hcases : k = 0 \/ k = 1 \/ k = 2 \/ k = 3 \/ k = 4 \/ k = 5 \/ k = 6 \/ k = 7 \/
                     k = 8 \/ k = 9 \/ k = 10 \/ k = 11 \/ k = 12 \/ k = 13 \/ k = 14 \/
                     k = 15) by lia.
    destruct_or!; subst k; decide_ifs; reflexivity.
  - decide_ifs; reflexivity.
Qed.

End Directory.

(** ** The directory table *)

Section Directories.

Import IcoEditor.

Lemma sumSizes_take_S (l : list ImageInfo.t) i t :
  l !! i = Some t ->
  sumSizes (take (S i) l) = sumSizes (take i l) + Stats.size (ImageInfo.stat t).
Proof.
  revert i. induction l as [|a l IH]; intros [|i] Hl; simpl in *; try discriminate.
  - injection Hl as ->. lia.
  - rewrite (IH i Hl). lia.
Qed.

(** What the [forEach] loop leaves: entry [i] of the remaining targets
    sits at [dirOffset + 16 i], and nothing outside the table is touched. *)
Lemma forEach_directories (targets : list ImageInfo.t) :
  forall st st',
    forEach writeDirectoriesBody targets st = Normal st' ->
    0 <= dirOffset st ->
    dirOffset st + 16 * Z.of_nat (List.length targets) < 2 ^ 32 ->
    Buffer.length (dsBuffer st') = Buffer.length (dsBuffer st) /\
    (forall j, 0 <= j ->
       j < dirOffset st \/ dirOffset st + 16 * Z.of_nat (List.length targets) <= j ->
       Buffer.get (dsBuffer st') j = Buffer.get (dsBuffer st) j) /\
    (forall i t, targets !! i = Some t ->
       let d := directoryOf t (imgOffset st + sumSizes (take i targets)) in
       dirInRange d /\
       dirOffset st + 16 * Z.of_nat i + 16 <= Buffer.length (dsBuffer st) /\
       forall k, 0 <= k < 16 ->
         Buffer.get (dsBuffer st') (dirOffset st + 16 * Z.of_nat i + k) = byteOf d k).
Proof.
  induction targets as [|a targets IH]; intros st st' H Hoff Hmax.
  - simpl in H. injection H as <-.
    split; [reflexivity|]. split; [reflexivity|].
    intros i t Ht. rewrite lookup_nil in Ht. discriminate.
  - simpl in H. bind_inv H. unfold writeDirectoriesBody in E. bind_inv E.
    injection E as <-.
    rewrite length_cons, Nat2Z.inj_succ in Hmax.
    apply writeDirectory_inv in E0 as (Hd & Hlen & Hsame & Hget); [|lia..].
    apply IH in H as (Hlen' & Hframe & Hentries); simpl in *;
      [|unfold IcoSpec.directorySize; lia..].
    unfold IcoSpec.directorySize in *.
    split; [congruence|]. split.
    + intros j Hj Hout. rewrite Hframe by lia. rewrite Hget by lia.
      decide_ifs; reflexivity.
    + intros [|i] t Ht; simpl in Ht.
      * injection Ht as ->. simpl. rewrite Z.add_0_r.
        split; [exact Hd|]. split; [lia|].
        intros k Hk. rewrite Hframe by lia. rewrite Hget by lia.
        decide_ifs. f_equal. lia.
      * destruct (Hentries i t Ht) as (Hr & Hl & Hb).
        rewrite Nat2Z.inj_succ. simpl.
        replace (imgOffset st + (Stats.size (ImageInfo.stat a) + sumSizes (take i targets)))
          with (imgOffset st + Stats.size (ImageInfo.stat a) + sumSizes (take i targets))
          by lia.
        split; [exact Hr|]. split; [lia|].
        intros k Hk. rewrite <- (Hb k Hk). f_equal. lia.
Qed.

Lemma writeHeader_inv (buf buf' : Buffer.t) type count :
  writeHeader buf type count = Normal buf' ->
  0 <= type <= 65535 /\ 0 <= count <= 65535 /\ 6 <= Buffer.length buf /\
  Buffer.length buf' = Buffer.length buf /\
  Buffer.get buf' 0 = 0 /\ Buffer.get buf' 1 = 0 /\
  Buffer.get buf' 2 = Z.land type 255 /\ Buffer.get buf' 3 = Z.land (Z.shiftr type 8) 255 /\
  Buffer.get buf' 4 = Z.land count 255 /\ Buffer.get buf' 5 = Z.land (Z.shiftr count 8) 255.
Proof.
  unfold writeHeader. intros H. do 2 bind_inv H.
  apply writeUInt16LE_inv in E as (? & ? & ->); [|lia].
  apply writeUInt16LE_inv in E0 as (? & ? & ->); [|lia].
  apply writeUInt16LE_inv in H as (? & ? & ->); [|lia].
  rewrite !length_set in *.
  repeat (split; [lia || reflexivity|]).
  repeat split; rewrite !get_set by (rewrite ?length_set; lia); decide_ifs; reflexivity.
Qed.

Lemma readHeader_of_bytes (buf : Buffer.t) type count :
  6 <= Buffer.length buf -> 0 <= type <= 65535 -> 0 <= count <= 65535 ->
  Buffer.get buf 0 = 0 -> Buffer.get buf 1 = 0 ->
  Buffer.get buf 2 = Z.land type 255 -> Buffer.get buf 3 = Z.land (Z.shiftr type 8) 255 ->
  Buffer.get buf 4 = Z.land count 255 -> Buffer.get buf 5 = Z.land (Z.shiftr count 8) 255 ->
  readHeader buf = Normal (ICOHeader.mk 0 type count).
Proof.
  intros Hlen Ht Hc H0 H1 H2 H3 H4 H5. unfold readHeader.
  rewrite !readUInt16LE_ok by lia. simpl.
  change (0 + 1) with 1. change (2 + 1) with 3. change (4 + 1) with 5.
  rewrite H0, H1, H2, H3, H4, H5.
  rewrite !le16_join by lia. reflexivity.
Qed.

(** The entry [readDirectory] returns when the sixteen bytes at [off] are
    those of [d]: every field but [width], which comes from byte 0. *)
Lemma readDirectory_of_bytes (buf : Buffer.t) off d :
  0 <= off -> off + 16 <= Buffer.length buf -> off + 16 < 2 ^ 32 ->
  dirInRange d ->
  (forall k, 0 <= k < 16 -> Buffer.get buf (off + k) = byteOf d k) ->
  readDirectory buf off
  = Normal (ICODirectory.mk (Buffer.get buf 0) (ICODirectory.height d)
              (ICODirectory.colors d) 0 (ICODirectory.planes d) (ICODirectory.bpp d)
              (ICODirectory.size d) (ICODirectory.offset d)).
Proof.
  intros Hoff Hlen Hmax (Hw & Hh & Hc & Hp & Hb & Hs & Ho) Hbytes.
  unfold readDirectory.
  rewrite !readUInt8_ok, !readUInt16LE_ok, !readUInt32LE_ok by lia. simpl.
  replace (off + 4 + 1) with (off + 5) by lia.
  replace (off + 6 + 1) with (off + 7) by lia.
  replace (off + 8 + 1) with (off + 9) by lia.
  replace (off + 8 + 2) with (off + 10) by lia.
  replace (off + 8 + 3) with (off + 11) by lia.
  replace (off + 12 + 1) with (off + 13) by lia.
  replace (off + 12 + 2) with (off + 14) by lia.
  replace (off + 12 + 3) with (off + 15) by lia.
  rewrite !Hbytes by lia. unfold byteOf. simpl.
  rewrite !le16_join, !le32_join by lia.
  rewrite !land_255, !Z.mod_small by lia. reflexivity.
Qed.

End Directories.

(** ** The header and directory block *)

Section Block.

Import IcoEditor.

Variable heap : nat -> Z.
Variable targets : list ImageInfo.t.

Let N : Z := Z.of_nat (List.length targets).

Lemma headerBlock_inv buf :
  headerBlock heap targets = Normal buf ->
  N <= 65535 /\ Buffer.length buf = 6 + 16 * N /\
  readHeader buf = Normal (ICOHeader.mk 0 1 N) /\
  Buffer.get buf 0 = 0 /\
  forall i t, targets !! i = Some t ->
    let d := directoryOf t (6 + 16 * N + sumSizes (take i targets)) in
    dirInRange d /\
    forall k, 0 <= k < 16 -> Buffer.get buf (6 + 16 * Z.of_nat i + k) = byteOf d k.
Proof.
  unfold headerBlock, writeDirectories, IcoSpec.headerSize, IcoSpec.directorySize.
  fold N. intros H. bind_inv H. bind_inv H. injection H as <-.
  apply writeHeader_inv in E
    as (_ & Hc & _ & Hlen & H0 & H1 & H2 & H3 & H4 & H5).
  rewrite length_alloc in Hlen by lia.
  apply forEach_directories in E0 as (Hlen' & Hframe & Hentries); simpl in *;
    fold N; [|lia..].
  fold N in Hframe. rewrite Hlen in Hlen'.
  split; [lia|]. split; [exact Hlen'|]. split; [|split].
  - apply readHeader_of_bytes; rewrite ?Hframe by lia; try assumption; lia.
  - rewrite Hframe by lia. exact H0.
  - intros i t Ht. destruct (Hentries i t Ht) as (Hr & _ & Hb). split; assumption.
Qed.

(** Entry [i] as [readDirectory] decodes it from the block. *)
Lemma readDirectory_headerBlock buf i t :
  headerBlock heap targets = Normal buf -> targets !! i = Some t ->
  readDirectory buf (6 + 16 * Z.of_nat i)
  = Normal (ICODirectory.mk 0
              (if 256 <=? ImageInfo.size t then 0 else ImageInfo.size t)
              0 0 1 32
              (Stats.size (ImageInfo.stat t))
              (6 + 16 * N + sumSizes (take i targets))).
Proof.
  intros H Ht.
  apply headerBlock_inv in H as (HN & Hlen & _ & H0 & Hentries).
  destruct (Hentries i t Ht) as (Hr & Hb).
  apply lookup_lt_Some in Ht. fold N in Hlen.
  assert (Z.of_nat i < N) by (unfold N; lia).
  rewrite (readDirectory_of_bytes buf (6 + 16 * Z.of_nat i) _
             ltac:(lia) ltac:(lia) ltac:(lia) Hr Hb).
  rewrite H0. reflexivity.
Qed.

End Block.

(** The block is produced whenever every field fits its width. *)

Section BlockTotal.

Import IcoEditor.

Lemma bind_ret {A B} (a : A) (k : A -> Completion B) : Normal a ≫= k = k a.
Proof. reflexivity. Qed.

Lemma writeDirectory_ok (buf : Buffer.t) off d :
  0 <= off -> off + 16 <= Buffer.length buf -> Buffer.length buf < 2 ^ 32 ->
  dirInRange d ->
  exists buf', IcoEditor.writeDirectory buf off d = Normal buf'
               /\ Buffer.length buf' = Buffer.length buf.
Proof.
  intros Hoff Hlen Hmax (Hw & Hh & Hc & Hp & Hb & Hs & Ho).
  unfold IcoEditor.writeDirectory.
  rewrite writeUInt8_ok, bind_ret by lia.
  rewrite writeUInt8_ok, bind_ret by (rewrite ?length_set; lia).
  rewrite writeUInt8_ok, bind_ret by (rewrite ?length_set; lia).
  rewrite writeUInt8_ok, bind_ret by (rewrite ?length_set; lia).
  rewrite writeUInt16LE_ok, bind_ret by (rewrite ?length_set; lia).
  rewrite writeUInt16LE_ok, bind_ret by (rewrite ?length_set; lia).
  rewrite writeUInt32LE_ok, bind_ret by (rewrite ?length_set; lia).
  rewrite writeUInt32LE_ok by (rewrite ?length_set; lia).
  eexists. split; [reflexivity|]. now rewrite !length_set.
Qed.

Lemma forEach_directories_ok (l : list ImageInfo.t) :
  forall st,
    0 <= dirOffset st -> 0 <= imgOffset st ->
    dirOffset st + 16 * Z.of_nat (List.length l) <= Buffer.length (dsBuffer st) ->
    Buffer.length (dsBuffer st) < 2 ^ 32 ->
    imgOffset st + sumSizes l <= 4294967295 ->
    Forall (fun t => 0 <= ImageInfo.size t /\ 0 <= Stats.size (ImageInfo.stat t)) l ->
    exists st', forEach writeDirectoriesBody l st = Normal st'.
Proof.
  induction l as [|a l IH]; intros st Hd Hi Hlen Hmax Hsum Hall.
  - eexists. reflexivity.
  - apply Forall_cons in Hall as ((Hsz & Hst) & Hall).
    rewrite length_cons, Nat2Z.inj_succ in Hlen. simpl in Hsum.
    assert (Hrest : 0 <= sumSizes l).
    { clear -Hall. induction Hall as [|x l' [_ ?] _ IHl]; simpl; lia. }
    destruct (writeDirectory_ok (dsBuffer st) (dirOffset st)
                (directoryOf a (imgOffset st))) as (buf' & Hw & Hlen'); try lia.
    { unfold dirInRange, directoryOf; simpl.
      destruct (Z.leb_spec 256 (ImageInfo.size a)); lia. }
    assert (Hbody : writeDirectoriesBody st a
                    = Normal (mkDirState buf' (dirOffset st + IcoSpec.directorySize)
                                (imgOffset st + Stats.size (ImageInfo.stat a))))
      by (unfold writeDirectoriesBody; rewrite Hw; reflexivity).
    cbn [forEach]. rewrite Hbody, bind_ret.
    apply IH; simpl; unfold IcoSpec.directorySize; try lia. exact Hall.
Qed.

Variable heap : nat -> Z.
Variable targets : list ImageInfo.t.

Let N : Z := Z.of_nat (List.length targets).

Lemma headerBlock_ok :
  N <= 65535 ->
  6 + 16 * N + sumSizes targets <= 4294967295 ->
  Forall (fun t => 0 <= ImageInfo.size t /\ 0 <= Stats.size (ImageInfo.stat t)) targets ->
  exists buf, headerBlock heap targets = Normal buf.
Proof.
  intros HN Hsum Hall.
  unfold headerBlock, writeHeader, writeDirectories,
    IcoSpec.headerSize, IcoSpec.directorySize. fold N.
  assert (0 <= N) by (unfold N; lia).
  pose proof (length_alloc heap (6 + 16 * N) ltac:(lia)) as Hlen.
  rewrite writeUInt16LE_ok, bind_ret by lia.
  rewrite writeUInt16LE_ok, bind_ret by (rewrite ?length_set; lia).
  rewrite writeUInt16LE_ok, bind_ret by (rewrite ?length_set; lia).
  match goal with |- context [forEach _ _ ?s] =>
    destruct (forEach_directories_ok targets s) as (st' & ->) end;
    simpl; rewrite ?length_set; fold N; try lia; try assumption.
  rewrite ?bind_ret. eauto.
Qed.

End BlockTotal.

(** ** When the block can be built *)

Section BlockFits.

Import IcoEditor.

Lemma sumSizes_take_nonneg (l : list ImageInfo.t) :
  (forall i t, l !! i = Some t -> 0 <= Stats.size (ImageInfo.stat t)) ->
  forall i, 0 <= sumSizes (take i l).
Proof.
  induction l as [|a l IH]; intros Hall i.
  - rewrite take_nil. cbn. lia.
  - destruct i as [|i]; simpl; [lia|].
    pose proof (Hall 0%nat a eq_refl).
    specialize (IH (fun i t H => Hall (S i) t H) i). lia.
Qed.

Lemma forEach_directories_fits (l : list ImageInfo.t) :
  forall st,
    0 <= dirOffset st -> 0 <= imgOffset st ->
    dirOffset st + 16 * Z.of_nat (List.length l) <= Buffer.length (dsBuffer st) ->
    Buffer.length (dsBuffer st) < 2 ^ 32 ->
    (forall i t, l !! i = Some t ->
       0 <= ImageInfo.size t /\
       0 <= Stats.size (ImageInfo.stat t) <= 4294967295 /\
       imgOffset st + sumSizes (take i l) <= 4294967295) ->
    exists st', forEach writeDirectoriesBody l st = Normal st'.
Proof.
  induction l as [|a l IH]; intros st Hd Hi Hlen Hmax Hall.
  - eexists. reflexivity.
  - rewrite length_cons, Nat2Z.inj_succ in Hlen.
    destruct (Hall 0%nat a eq_refl) as (Hsz & Hst & Hoff).
    rewrite take_0 in Hoff. cbn [sumSizes foldr] in Hoff.
    destruct (writeDirectory_ok (dsBuffer st) (dirOffset st)
                (directoryOf a (imgOffset st))) as (buf' & Hw & Hlen'); try lia.
    { unfold dirInRange, directoryOf; simpl.
      destruct (Z.leb_spec 256 (ImageInfo.size a)); lia. }
    assert (Hbody : writeDirectoriesBody st a
                    = Normal (mkDirState buf' (dirOffset st + IcoSpec.directorySize)
                                (imgOffset st + Stats.size (ImageInfo.stat a))))
      by (unfold writeDirectoriesBody; rewrite Hw; reflexivity).
    cbn [forEach]. rewrite Hbody, bind_ret.
    apply IH; simpl; unfold IcoSpec.directorySize; try lia.
    intros i t Ht. destruct (Hall (S i) t Ht) as (? & ? & Ho).
    simpl in Ho.
    repeat split; lia.
Qed.

Lemma headerBlock_fits heap targets :
  blockFits targets -> exists buf, headerBlock heap targets = Normal buf.
Proof.
  intros (HN & Hall).
  unfold headerBlock, writeHeader, writeDirectories,
    IcoSpec.headerSize, IcoSpec.directorySize.
  set (N := Z.of_nat (List.length targets)) in *.
  assert (0 <= N) by (unfold N; lia).
  pose proof (length_alloc heap (6 + 16 * N) ltac:(lia)) as Hlen.
  rewrite writeUInt16LE_ok, bind_ret by lia.
  rewrite writeUInt16LE_ok, bind_ret by (rewrite ?length_set; lia).
  rewrite writeUInt16LE_ok, bind_ret by (rewrite ?length_set; lia).
  match goal with |- context [forEach _ _ ?s] =>
    destruct (forEach_directories_fits targets s) as (st' & ->) end;
    cbn [dirOffset imgOffset dsBuffer]; rewrite ?length_set; fold N; try lia.
  + intros i t Ht. destruct (Hall i t Ht) as (? & ? & ?). repeat split; lia.
  + rewrite ?bind_ret. eauto.
Qed.

Lemma headerBlock_fits_inv heap targets buf :
  headerBlock heap targets = Normal buf -> blockFits targets.
Proof.
  intros H. apply headerBlock_inv in H as (HN & _ & _ & _ & Hentries).
  split; [exact HN|]. intros i t Ht.
  destruct (Hentries i t Ht) as ((Hw & _ & _ & _ & _ & Hs & Ho) & _).
  cbn [directoryOf ICODirectory.width ICODirectory.size ICODirectory.offset] in Hw, Hs, Ho.
  repeat split; try lia.
  destruct (Z.leb_spec 256 (ImageInfo.size t)); lia.
Qed.

(** The width and height bytes of an entry of the block. *)
Lemma headerBlock_width_height heap targets buf i t :
  headerBlock heap targets = Normal buf ->
  targets !! i = Some t ->
  let w := if 256 <=? ImageInfo.size t then 0 else ImageInfo.size t in
  0 <= w <= 255 /\
  Buffer.readUInt8 buf (6 + 16 * Z.of_nat i) = Normal w /\
  Buffer.readUInt8 buf (6 + 16 * Z.of_nat i + 1) = Normal w.
Proof.
  intros Hblock Ht.
  apply headerBlock_inv in Hblock as (HN & Hlen & _ & _ & Hentries).
  destruct (Hentries i t Ht) as ((Hw & _) & Hb).
  apply lookup_lt_Some in Ht.
  cbn [directoryOf ICODirectory.width] in Hw.
  rewrite !readUInt8_ok by lia.
  pose proof (Hb 0 ltac:(lia)) as H0. pose proof (Hb 1 ltac:(lia)) as H1.
  rewrite Z.add_0_r in H0. rewrite H0, H1.
  unfold byteOf, encodeDirectory, directoryOf.
  cbn [Z.to_nat Pos.to_nat Pos.iter_op Nat.add lookup list_lookup default
       ICODirectory.width ICODirectory.height from_option id].
  rewrite land_255, Z.mod_small by lia.
  repeat split; lia.
Qed.

End BlockFits.

(** ** The promise primitives *)

Ltac loop_simpl :=
  unfold setPromises, setNextId, setMicrotasks, setReads, setStream, setCalls, setUncaught;
  cbn [promises nextId microtasks reads stream calls uncaught snd fst map app].

Section Primitives.

Import Promise Runtime.

Lemma IO_bind_Normal {A B} (m : IO A) (k : A -> IO B) st a st' :
  m st = (Normal a, st') -> (m ≫= k) st = k a st'.
Proof. unfold mbind, IO_bind. now intros ->. Qed.

Lemma newPromise_eq s st :
  newPromise s st
  = (Normal (nextId st),
     mkLoop (<[nextId st := mkCell s []]> (promises st)) (S (nextId st))
            (microtasks st) (reads st) (stream st) (calls st) (uncaught st)).
Proof. reflexivity. Qed.

Lemma settle_pending p outcome rs st :
  promises st !! p = Some (mkCell Pending rs) ->
  settle p outcome st
  = (Normal tt,
     mkLoop (<[p := mkCell outcome []]> (promises st)) (nextId st)
            (microtasks st ++ map (fun r => mkJob r outcome) rs)
            (reads st) (stream st) (calls st) (uncaught st)).
Proof. intros H. unfold settle, mbind, IO_bind, gets. rewrite H. reflexivity. Qed.

Lemma then_pending p onF onR rs st :
  promises st !! p = Some (mkCell Pending rs) -> p ≠ nextId st ->
  then_ p onF onR st
  = (Normal (nextId st),
     mkLoop (<[p := mkCell Pending
                      (rs ++ [mkReaction (IsCallable onF) (IsCallable onR) (nextId st)])]>
               (<[nextId st := mkCell Pending []]> (promises st)))
            (S (nextId st)) (microtasks st) (reads st) (stream st) (calls st) (uncaught st)).
Proof.
  intros H Hne. unfold then_, mbind, IO_bind, gets. rewrite newPromise_eq. simpl.
  rewrite lookup_insert_ne by congruence. rewrite H. reflexivity.
Qed.

Lemma then_fulfilled p onF onR rs st :
  promises st !! p = Some (mkCell Fulfilled rs) -> p ≠ nextId st ->
  then_ p onF onR st
  = (Normal (nextId st),
     mkLoop (<[nextId st := mkCell Pending []]> (promises st)) (S (nextId st))
            (microtasks st
             ++ [mkJob (mkReaction (IsCallable onF) (IsCallable onR) (nextId st)) Fulfilled])
            (reads st) (stream st) (calls st) (uncaught st)).
Proof.
  intros H Hne. unfold then_, mbind, IO_bind, gets. rewrite newPromise_eq. simpl.
  rewrite lookup_insert_ne by congruence. rewrite H. reflexivity.
Qed.

End Primitives.

(** ** The synchronous part of [writeImages] *)

Section Chain.

Import Promise Runtime IcoEditor.
Local Open Scope nat_scope.

Lemma mapIO_writeImage (targets : list ImageInfo.t) :
  forall st, exists st',
    mapIO writeImage targets st
    = (Normal (seq (nextId st) (length targets)), st') /\
    nextId st' = nextId st + length targets /\
    microtasks st' = microtasks st /\ stream st' = stream st /\ calls st' = calls st /\
    reads st' = reads st ++ zip (ImageInfo.path <$> targets)
                                (seq (nextId st) (length targets)) /\
    (forall k, k < nextId st -> promises st' !! k = promises st !! k) /\
    (forall k, nextId st <= k < nextId st + length targets ->
               promises st' !! k = Some pendingCell).
Proof.
  induction targets as [|t targets IH]; intros st.
  - exists st. simpl. rewrite app_nil_r, Nat.add_0_r.
    repeat split; try reflexivity. intros k Hk. lia.
  - set (st1 := mkLoop (<[nextId st := pendingCell]> (promises st)) (S (nextId st))
                       (microtasks st) (reads st ++ [(ImageInfo.path t, nextId st)])
                       (stream st) (calls st) (uncaught st)).
    destruct (IH st1) as (st' & Hrun & Hn & Hm & Hs & Hc & Hr & Hlow & Hnew).
    exists st'. simpl in *.
    split; [|repeat split].
    + cbn [mapIO]. erewrite IO_bind_Normal by reflexivity.
      fold st1. erewrite IO_bind_Normal by exact Hrun. reflexivity.
    + lia.
    + exact Hm.
    + exact Hs.
    + exact Hc.
    + rewrite Hr, <- app_assoc. reflexivity.
    + intros k Hk. rewrite Hlow by lia. simpl. apply lookup_insert_ne. lia.
    + intros k Hk. destruct (decide (k = nextId st)) as [->|Hne].
      * rewrite Hlow by lia. simpl. apply lookup_insert_eq.
      * apply Hnew. lia.
Qed.

Lemma reduce_then (tasks : list nat) :
  forall st acc,
    nextId st = S acc -> promises st !! acc = Some pendingCell ->
    exists st',
      reduce (fun prev current => then_ prev (APromise current) AUndefined) tasks acc st
      = (Normal (acc + length tasks), st') /\
      nextId st' = nextId st + length tasks /\
      microtasks st' = microtasks st /\ reads st' = reads st /\
      stream st' = stream st /\ calls st' = calls st /\
      (forall k, k < acc -> promises st' !! k = promises st !! k) /\
      (forall i, i < length tasks ->
                 promises st' !! (acc + i) = Some (mkCell Pending [passOn (acc + i + 1)])) /\
      promises st' !! (acc + length tasks) = Some pendingCell.
Proof.
  induction tasks as [|t tasks IH]; intros st acc Hn Hacc.
  - exists st. simpl. rewrite !Nat.add_0_r.
    repeat split; try reflexivity; try assumption. intros i Hi. lia.
  - set (st1 := mkLoop (<[acc := mkCell Pending [passOn (S acc)]]>
                          (<[S acc := pendingCell]> (promises st)))
                       (S (S acc)) (microtasks st) (reads st) (stream st) (calls st) (uncaught st)).
    assert (Hstep : then_ acc (APromise t) AUndefined st = (Normal (S acc), st1)).
    { rewrite (then_pending acc _ _ [] st Hacc) by lia. rewrite Hn. reflexivity. }
    destruct (IH st1 (S acc)) as (st' & Hrun & Hn' & Hm & Hr & Hs & Hc & Hlow & Hmid & Hend).
    { reflexivity. }
    { simpl. rewrite lookup_insert_ne by lia. apply lookup_insert_eq. }
    exists st'. simpl in Hn', Hm, Hr, Hs, Hc.
    split; [|repeat split].
    + cbn [reduce]. erewrite IO_bind_Normal by exact Hstep.
      rewrite Hrun. simpl. repeat f_equal. lia.
    + simpl. lia.
    + exact Hm.
    + exact Hr.
    + exact Hs.
    + exact Hc.
    + intros k Hk. rewrite Hlow by lia. simpl.
      rewrite !lookup_insert_ne by lia. reflexivity.
    + intros i Hi. simpl in Hi. destruct i as [|i].
      * rewrite Nat.add_0_r. rewrite Hlow by lia. simpl.
        rewrite lookup_insert_eq. repeat f_equal. lia.
      * replace (acc + S i) with (S acc + i) by lia.
        rewrite Hmid by lia. repeat f_equal.
    + simpl. replace (acc + S (length tasks)) with (S acc + length tasks) by lia. exact Hend.
Qed.

End Chain.

Section WriteImages.

Import Promise Runtime IcoEditor.
Local Open Scope nat_scope.

Variable env : Env.

Lemma writeImages_sync (targets : list ImageInfo.t) st :
  targets <> [] ->
  let N := length targets in
  exists st',
    writeImages env targets st = (Normal tt, st') /\
    nextId st' = nextId st + 2 * N + 3 /\
    microtasks st' = microtasks st ++ [mkJob (passOn (nextId st + N + 1)) Fulfilled] /\
    reads st' = reads st ++ zip (ImageInfo.path <$> targets) (seq (nextId st) N) /\
    stream st' = stream st /\ calls st' = calls st /\
    chained (nextId st) N (promises st').
Proof.
  intros Hne N.
  destruct (mapIO_writeImage targets st)
    as (st1 & Hmap & Hn1 & Hm1 & Hs1 & Hc1 & Hr1 & _ & Htasks).
  fold N in Hmap, Hn1, Hr1, Htasks.
  assert (HN : 1 <= N) by (unfold N; destruct targets; [congruence | simpl; lia]).
  set (n0 := nextId st) in *.
  (* Promise.resolve() *)
  set (st2 := mkLoop (<[n0 + N := mkCell Fulfilled []]> (promises st1)) (S (n0 + N))
                     (microtasks st1) (reads st1) (stream st1) (calls st1) (uncaught st1)).
  (* the first then, on the fulfilled promise *)
  set (st3 := mkLoop (<[S (n0 + N) := pendingCell]> (promises st2)) (S (S (n0 + N)))
                     (microtasks st2 ++ [mkJob (passOn (S (n0 + N))) Fulfilled])
                     (reads st2) (stream st2) (calls st2) (uncaught st2)).
  assert (Hseq : seq n0 N = n0 :: seq (S n0) (N - 1)).
  { destruct N; [lia|]. simpl. now rewrite Nat.sub_0_r. }
  destruct (reduce_then (seq (S n0) (N - 1)) st3 (S (n0 + N)))
    as (st4 & Hred & Hn4 & Hm4 & Hr4 & Hs4 & Hc4 & Hlow4 & Hmid4 & Hend4).
  { reflexivity. }
  { simpl. apply lookup_insert_eq. }
  rewrite length_seq in Hred, Hn4, Hmid4, Hend4.
  replace (S (n0 + N) + (N - 1)) with (n0 + 2 * N) in Hred, Hend4 by lia.
  simpl in Hn4.
  (* then(() => cb()) and catch(err => cb(err)) *)
  set (d := n0 + 2 * N + 1).
  set (st5 := mkLoop (<[n0 + 2 * N := mkCell Pending [mkReaction (Some OnDone) None d]]>
                        (<[d := pendingCell]> (promises st4)))
                     (S d) (microtasks st4) (reads st4) (stream st4) (calls st4) (uncaught st4)).
  set (st6 := mkLoop (<[d := mkCell Pending [mkReaction None (Some OnError) (S d)]]>
                        (<[S d := pendingCell]> (promises st5)))
                     (S (S d)) (microtasks st5) (reads st5) (stream st5) (calls st5) (uncaught st5)).
  exists st6. split; [|repeat split].
  - unfold writeImages.
    erewrite IO_bind_Normal by exact Hmap.
    erewrite IO_bind_Normal by (rewrite newPromise_eq, Hn1; reflexivity).
    fold st2. rewrite Hseq. cbn [reduce].
    erewrite IO_bind_Normal.
    2:{ erewrite IO_bind_Normal.
        2:{ rewrite (then_fulfilled (n0 + N) _ _ [] st2); [reflexivity| |simpl; lia].
            simpl. apply lookup_insert_eq. }
        simpl. fold st3. exact Hred. }
    erewrite IO_bind_Normal.
    2:{ rewrite (then_pending (n0 + 2 * N) _ _ [] st4 Hend4) by lia.
        rewrite Hn4. replace (S (S (n0 + N + (N - 1)))) with d by (unfold d; lia).
        reflexivity. }
    fold st5. unfold catch_.
    erewrite IO_bind_Normal.
    2:{ rewrite (then_pending d _ _ [] st5); [reflexivity| |simpl; lia].
        simpl. rewrite lookup_insert_ne by (unfold d; lia). apply lookup_insert_eq. }
    reflexivity.
  - unfold st6, d. cbn [nextId]. lia.
  - unfold st6, st5. cbn [microtasks]. rewrite Hm4. unfold st3, st2. cbn [microtasks].
    rewrite Hm1. repeat f_equal. lia.
  - unfold st6, st5. cbn [reads]. rewrite Hr4. exact Hr1.
  - unfold st6, st5. cbn [stream]. rewrite Hs4. exact Hs1.
  - unfold st6, st5. cbn [calls]. rewrite Hc4. exact Hc1.
  - intros k Hk. unfold st6, st5, d. cbn [promises].
    rewrite !lookup_insert_ne by lia. rewrite Hlow4 by lia.
    unfold st3, st2. cbn [promises].
    rewrite !lookup_insert_ne by lia. apply Htasks. lia.
  - intros i Hi. unfold st6, st5, d. cbn [promises].
    rewrite !lookup_insert_ne by lia.
    replace (n0 + N + 1 + i) with (S (n0 + N) + i) by lia.
    rewrite Hmid4 by lia. repeat f_equal; lia.
  - unfold st6, st5, d. cbn [promises].
    rewrite !lookup_insert_ne by lia. apply lookup_insert_eq.
  - unfold st6. cbn [promises]. rewrite lookup_insert_eq. unfold d.
    repeat f_equal; lia.
  - unfold st6. cbn [promises]. rewrite lookup_insert_ne by lia.
    replace (n0 + 2 * N + 2) with (S d) by (unfold d; lia). apply lookup_insert_eq.
Qed.

End WriteImages.

(** ** The reaction jobs *)

Section Drain.

Import Promise Runtime IcoEditor EventLoop.
Local Open Scope nat_scope.

Variable env : Env.

Lemma drain_idle fuel st : microtasks st = [] -> drain env fuel st = st.
Proof. intros H. destruct fuel; simpl; [|rewrite H]; reflexivity. Qed.

Lemma drain_step fuel st j rest :
  microtasks st = j :: rest ->
  drain env (S fuel) st = drain env fuel (runJob env j (setMicrotasks rest st)).2.
Proof. intros H. simpl. rewrite H. reflexivity. Qed.

(** The jobs of the [prev.then(current)] links: each hands the
    fulfilment on to the next link, whatever the tasks do. *)
Lemma drain_links (len : nat) :
  forall st c fuel,
    microtasks st = [mkJob (passOn c) Fulfilled] ->
    (forall i, i < len ->
       promises st !! (c + i) = Some (mkCell Pending [passOn (c + i + 1)])) ->
    exists st',
      drain env (len + fuel) st = drain env fuel st' /\
      microtasks st' = [mkJob (passOn (c + len)) Fulfilled] /\
      nextId st' = nextId st /\ reads st' = reads st /\
      stream st' = stream st /\ calls st' = calls st /\
      (forall k, k < c \/ c + len <= k -> promises st' !! k = promises st !! k).
Proof.
  induction len as [|len IH]; intros st c fuel Hq Hcells.
  - exists st. rewrite Nat.add_0_r. repeat split; try reflexivity. exact Hq.
  - set (st1 := mkLoop (<[c := mkCell Fulfilled []]> (promises st)) (nextId st)
                       [mkJob (passOn (c + 1)) Fulfilled]
                       (reads st) (stream st) (calls st) (uncaught st)).
    assert (Hjob : (runJob env (mkJob (passOn c) Fulfilled) (setMicrotasks [] st)).2 = st1).
    { unfold runJob. cbn [reaction settled passOn onFulfilled derived].
      rewrite (settle_pending c Fulfilled [passOn (c + 1)]).
      - reflexivity.
      - cbn [setMicrotasks promises]. pose proof (Hcells 0) as H0.
        rewrite !Nat.add_0_r in H0. apply H0. lia. }
    destruct (IH st1 (c + 1) fuel) as (st' & Hrun & Hq' & Hn & Hr & Hs & Hc & Hframe).
    { reflexivity. }
    { intros i Hi. unfold st1. cbn [promises].
      rewrite lookup_insert_ne by lia.
      replace (c + 1 + i) with (c + S i) by lia.
      rewrite Hcells by lia.
      replace (c + S i + 1) with (c + 1 + i + 1) by lia. reflexivity. }
    exists st'. split; [|repeat split; try assumption].
    + replace (S len + fuel) with (S (len + fuel)) by lia.
      rewrite (drain_step _ _ _ _ Hq), Hjob. exact Hrun.
    + rewrite Hq'. replace (c + 1 + len) with (c + S len) by lia. reflexivity.
    + intros k Hk. rewrite Hframe by lia. unfold st1. cbn [promises].
      apply lookup_insert_ne. lia.
Qed.

(** The last three jobs: the chain's end is fulfilled, [() => cb()] runs,
    and [catch] sees what came of it. *)
Lemma drain_tail st c d e fuel :
  c <> d -> c <> e -> d <> e ->
  microtasks st = [mkJob (passOn c) Fulfilled] ->
  promises st !! c = Some (mkCell Pending [mkReaction (Some OnDone) None d]) ->
  promises st !! d = Some (mkCell Pending [mkReaction None (Some OnError) e]) ->
  promises st !! e = Some pendingCell ->
  exists st',
    drain env (3 + fuel) st = st' /\
    microtasks st' = [] /\ calls st' = calls st ++ cbCalls env /\
    nextId st' = nextId st /\ reads st' = reads st /\ stream st' = stream st /\
    (forall k, k <> c -> k <> d -> k <> e -> promises st' !! k = promises st !! k).
Proof.
  intros Hcd Hce Hde Hq Hc Hd He.
  replace (3 + fuel) with (S (S (S fuel))) by lia.
  rewrite (drain_step _ _ _ _ Hq).
  unfold runJob at 1. cbn [reaction settled passOn onFulfilled derived].
  erewrite settle_pending by (loop_simpl; exact Hc). loop_simpl.
  erewrite drain_step by reflexivity.
  unfold runJob at 1. cbn [reaction settled onFulfilled derived].
  unfold mbind, IO_bind, attempt, callClosure, callCb, cbCalls. loop_simpl.
  destruct (cb env None) as [[]|err].
  - erewrite settle_pending
      by (loop_simpl; rewrite lookup_insert_ne by congruence; exact Hd).
    loop_simpl. erewrite drain_step by reflexivity.
    unfold runJob at 1. cbn [reaction settled onFulfilled derived].
    erewrite settle_pending
      by (loop_simpl; rewrite !lookup_insert_ne by congruence; exact He).
    loop_simpl. rewrite drain_idle by reflexivity.
    eexists. split; [reflexivity|]. loop_simpl.
    repeat split. intros k ? ? ?. now rewrite !lookup_insert_ne by congruence.
  - erewrite settle_pending
      by (loop_simpl; rewrite lookup_insert_ne by congruence; exact Hd).
    loop_simpl. erewrite drain_step by reflexivity.
    unfold runJob at 1. cbn [reaction settled onRejected derived].
    unfold mbind, IO_bind, attempt, callClosure, callCb. loop_simpl.
    destruct (cb env (Some err)) as [[]|err'];
      (erewrite settle_pending
         by (loop_simpl; rewrite !lookup_insert_ne by congruence; exact He));
      loop_simpl; rewrite drain_idle by reflexivity;
      (eexists; split; [reflexivity|]); loop_simpl;
      rewrite <- app_assoc; repeat split;
      intros k ? ? ?; now rewrite !lookup_insert_ne by congruence.
Qed.

End Drain.

(** ** Nothing [write] does, and no job, sets [uncaught] *)

Section Uncaught.

Import Promise Runtime IcoEditor EventLoop.
Local Open Scope nat_scope.

Variable env : Env.

Definition keeps {A} (m : IO A) : Prop := forall st, uncaught (m st).2 = uncaught st.

Lemma keeps_bind {A B} (m : IO A) (k : A -> IO B) :
  keeps m -> (forall a, keeps (k a)) -> keeps (m ≫= k).
Proof.
  intros Hm Hk st. unfold mbind, IO_bind. specialize (Hm st).
  destruct (m st) as [[a|e] st']; cbn [snd] in *; [|exact Hm].
  now rewrite Hk.
Qed.

Lemma keeps_ret {A} (a : A) : keeps (mret a).
Proof. intros st. reflexivity. Qed.

Lemma keeps_liftC {A} (c : Completion A) : keeps (liftC c).
Proof. intros st. reflexivity. Qed.

Lemma keeps_gets {A} (f : Loop -> A) : keeps (gets f).
Proof. intros st. reflexivity. Qed.

Lemma keeps_attempt {A} (m : IO A) : keeps m -> keeps (attempt m).
Proof. intros Hm st. unfold attempt. specialize (Hm st). now destruct (m st). Qed.

Lemma keeps_callCb err : keeps (callCb env err).
Proof. intros st. reflexivity. Qed.

Lemma keeps_newPromise s : keeps (newPromise s).
Proof. intros st. reflexivity. Qed.

Lemma keeps_settle p outcome : keeps (settle p outcome).
Proof.
  intros st. unfold settle, mbind, IO_bind, gets.
  destruct (promises st !! p) as [[[] rs]|]; reflexivity.
Qed.

Lemma keeps_then p onF onR : keeps (then_ p onF onR).
Proof.
  unfold then_. apply keeps_bind; [apply keeps_newPromise|]. intros q.
  cbv zeta. apply keeps_bind; [apply keeps_gets|]. intros cell.
  apply keeps_bind; [|intros ?; apply keeps_ret].
  destruct cell as [[[] rs]|]; intros st; reflexivity.
Qed.

Lemma keeps_streamWrite chunk : keeps (streamWrite chunk).
Proof.
  intros st. unfold streamWrite, modify. cbn [snd].
  destruct (stream st) as [[dest chunks]|]; reflexivity.
Qed.

Lemma keeps_mapIO {A B} (f : A -> IO B) (l : list A) :
  (forall a, keeps (f a)) -> keeps (mapIO f l).
Proof.
  intros Hf. induction l as [|a l IH]; [apply keeps_ret|].
  cbn [mapIO]. apply keeps_bind; [apply Hf|]. intros b.
  apply keeps_bind; [exact IH|]. intros bs. apply keeps_ret.
Qed.

Lemma keeps_reduce {A B} (f : B -> A -> IO B) (l : list A) :
  (forall b a, keeps (f b a)) -> forall acc, keeps (reduce f l acc).
Proof.
  intros Hf. induction l as [|a l IH]; intros acc; [apply keeps_ret|].
  cbn [reduce]. apply keeps_bind; [apply Hf|]. exact IH.
Qed.

Lemma keeps_writeImages targets : keeps (writeImages env targets).
Proof.
  unfold writeImages.
  apply keeps_bind; [apply keeps_mapIO; intros t st; reflexivity|]. intros tasks.
  apply keeps_bind; [apply keeps_newPromise|]. intros start.
  apply keeps_bind; [apply keeps_reduce; intros; apply keeps_then|]. intros chain.
  apply keeps_bind; [apply keeps_then|]. intros finished.
  apply keeps_bind; [apply keeps_then|]. intros ?. apply keeps_ret.
Qed.

Lemma keeps_write targets dest : keeps (write env targets dest).
Proof.
  unfold write. destruct (js_not _); [apply keeps_callCb|].
  apply keeps_bind; [apply keeps_liftC|]. intros stat.
  destruct (parentMissing stat); [apply keeps_callCb|].
  apply keeps_bind; [apply keeps_liftC|]. intros buffer.
  apply keeps_bind; [intros st; reflexivity|]. intros ?.
  apply keeps_bind; [apply keeps_streamWrite|]. intros ?.
  apply keeps_writeImages.
Qed.

Lemma keeps_onRead p result : keeps (onRead p result).
Proof.
  destruct result as [data|err]; cbn [onRead]; [|apply keeps_settle].
  apply keeps_bind; [apply keeps_streamWrite|]. intros ?. apply keeps_settle.
Qed.

Lemma keeps_runJob j : keeps (runJob env j).
Proof.
  unfold runJob.
  destruct (settled j) as [| |reason]; [apply keeps_ret| |].
  - destruct (onFulfilled (reaction j)) as [f|]; [|apply keeps_settle].
    apply keeps_bind.
    + apply keeps_attempt. destruct f; apply keeps_callCb.
    + intros [[]|e]; apply keeps_settle.
  - destruct (onRejected (reaction j)) as [f|]; [|apply keeps_settle].
    apply keeps_bind.
    + apply keeps_attempt. destruct f; apply keeps_callCb.
    + intros [[]|e]; apply keeps_settle.
Qed.

Lemma drain_uncaught fuel : forall st, uncaught (drain env fuel st) = uncaught st.
Proof.
  induction fuel as [|fuel IH]; intros st; [reflexivity|].
  cbn [drain]. destruct (microtasks st) as [|j rest]; [reflexivity|].
  rewrite IH, keeps_runJob. reflexivity.
Qed.

Lemma complete_uncaught k st : uncaught (complete env k st) = uncaught st.
Proof.
  unfold complete. destruct (reads st !! _) as [[path p]|]; [|reflexivity].
  unfold drainAll. rewrite drain_uncaught, keeps_onRead. reflexivity.
Qed.

Lemma completeAll_uncaught n : forall sched st,
  uncaught (completeAll env n sched st) = uncaught st.
Proof.
  induction n as [|n IH]; intros sched st; [reflexivity|].
  cbn [completeAll]. rewrite IH. apply complete_uncaught.
Qed.

End Uncaught.

(** ** The reads complete *)

Section Reads.

Import Promise Runtime IcoEditor EventLoop.
Local Open Scope nat_scope.

Variable env : Env.

Lemma payloads_cons x l :
  payloads env (x :: l) = payloads env [x] ++ payloads env l.
Proof. unfold payloads. simpl. now rewrite app_nil_r. Qed.

Lemma complete_spec k st dest chunks x :
  microtasks st = [] -> stream st = Some (dest, chunks) -> readsPending st ->
  reads st !! (k mod length (reads st)) = Some x ->
  let st' := complete env k st in
  microtasks st' = [] /\ calls st' = calls st /\
  reads st' = delete (k mod length (reads st)) (reads st) /\
  stream st' = Some (dest, chunks ++ payloads env [x.1]) /\
  readsPending st'.
Proof.
  intros Hq Hs [Hnd Hpend] Hx. destruct x as [path p].
  pose proof (delete_Permutation _ _ _ Hx) as Hperm.
  assert (Hp : promises st !! p = Some pendingCell)
    by (apply (Hpend (path, p)); eapply list_elem_of_lookup_2; exact Hx).
  assert (Hrest : (p ∉ (delete (k mod length (reads st)) (reads st)).*2) /\
                  NoDup ((delete (k mod length (reads st)) (reads st)).*2)).
  { rewrite Hperm in Hnd. rewrite fmap_cons in Hnd. apply NoDup_cons in Hnd. exact Hnd. }
  destruct Hrest as [Hnotin Hnd'].
  assert (Hpend' : forall o y, y ∈ delete (k mod length (reads st)) (reads st) ->
                     <[p := mkCell o []]> (promises st) !! y.2 = Some pendingCell).
  { intros o y Hy. rewrite lookup_insert_ne.
    - apply Hpend. eapply list_elem_of_delete_inv. exact Hy.
    - intros ->. apply Hnotin. apply list_elem_of_fmap. eauto. }
  unfold complete. rewrite Hx. unfold onRead, payloads. cbn [flat_map fst].
  destruct (readFile env path) as [data|err].
  - unfold mbind, IO_bind, streamWrite, modify. loop_simpl. rewrite Hs. loop_simpl.
    erewrite settle_pending by (loop_simpl; exact Hp). loop_simpl.
    unfold drainAll. rewrite drain_idle by (loop_simpl; now rewrite Hq).
    loop_simpl. rewrite Hq, app_nil_r.
    repeat split; try assumption. intros y Hy. loop_simpl. now apply Hpend'.
  - erewrite settle_pending by (loop_simpl; exact Hp). loop_simpl.
    unfold drainAll. rewrite drain_idle by (loop_simpl; now rewrite Hq).
    loop_simpl. rewrite Hq, Hs, !app_nil_r.
    repeat split; try assumption. intros y Hy. loop_simpl. now apply Hpend'.
Qed.

(** The first [n] reads to complete, of those outstanding. *)
Lemma completeAll_prefix (n : nat) :
  forall sched st dest chunks,
    n <= length (reads st) ->
    microtasks st = [] -> stream st = Some (dest, chunks) -> readsPending st ->
    let st' := completeAll env n sched st in
    microtasks st' = [] /\ calls st' = calls st /\
    length (reads st') = length (reads st) - n /\
    stream st'
    = Some (dest, chunks ++ payloads env ((completionOrder n sched (reads st)).*1)).
Proof.
  induction n as [|n IH]; intros sched st dest chunks Hlen Hq Hs Hpend.
  - simpl. rewrite app_nil_r. repeat split; try assumption. lia.
  - cbn [completeAll completionOrder].
    destruct (lookup_lt_is_Some_2 (reads st) (hd 0 sched mod length (reads st)))
      as [x Hx].
    { apply Nat.mod_upper_bound. lia. }
    rewrite Hx.
    destruct (complete_spec _ _ _ _ _ Hq Hs Hpend Hx) as (Hq' & Hc' & Hr' & Hs' & Hpend').
    assert (Hlen' : length (reads (complete env (hd 0 sched) st)) = length (reads st) - 1)
      by (rewrite Hr', length_delete by eauto; lia).
    destruct (IH (tail sched) (complete env (hd 0 sched) st) dest
                (chunks ++ payloads env [x.1]))
      as (Hq'' & Hc'' & Hr'' & Hs''); try assumption.
    { lia. }
    repeat split; try assumption.
    + congruence.
    + lia.
    + rewrite Hs'', Hr', fmap_cons, <- app_assoc, <- payloads_cons. reflexivity.
Qed.

Lemma completeAll_spec (n : nat) :
  forall sched st dest chunks,
    length (reads st) = n ->
    microtasks st = [] -> stream st = Some (dest, chunks) -> readsPending st ->
    let st' := completeAll env n sched st in
    microtasks st' = [] /\ calls st' = calls st /\ reads st' = [] /\
    stream st'
    = Some (dest, chunks ++ payloads env ((completionOrder n sched (reads st)).*1)).
Proof.
  intros sched st dest chunks Hlen Hq Hs Hpend.
  destruct (completeAll_prefix n sched st dest chunks) as (Hq' & Hc' & Hr' & Hs');
    try assumption; [lia|].
  repeat split; try assumption.
  apply length_zero_iff_nil. lia.
Qed.

End Reads.

(** ** A whole run of [write] *)

Section Run.

Import Promise Runtime IcoEditor EventLoop.
Local Open Scope nat_scope.

Variable env : Env.

Lemma completionOrder_fmap {A B} (f : A -> B) (n : nat) :
  forall sched (l : list A),
    f <$> completionOrder n sched l = completionOrder n sched (f <$> l).
Proof.
  induction n as [|n IH]; intros sched l; [reflexivity|].
  cbn [completionOrder]. rewrite length_fmap, list_lookup_fmap.
  destruct (l !! _) as [x|]; [|reflexivity].
  cbn [fmap option_fmap option_map]. rewrite fmap_cons, IH, list_fmap_delete. reflexivity.
Qed.

(** With at least one target, a parent directory [statSync] accepts and
    fields that fit, [write] returns, the callback is called without an
    error as soon as the chain has run, and the payloads are handed to the
    stream in the order the reads complete, all of them unless the stream
    fails first: then its error is left uncaught. *)
Lemma write_run (targets : list ImageInfo.t) dest stat buf :
  targets <> [] ->
  statSync env (dirname env dest) = Normal stat ->
  headerBlock (heap env) targets = Normal buf ->
  exists st,
    run env (write env targets dest) = (Normal tt, st) /\
    calls st = cbCalls env /\
    uncaught st = streamError env dest /\
    microtasks st = [] /\
    stream st
    = Some (dest,
            buf :: payloads env
                     (completionOrder (readsCompleted env dest (length targets))
                        (schedule env) (ImageInfo.path <$> targets))) /\
    length (reads st) = length targets - readsCompleted env dest (length targets).
Proof.
  intros Hne Hstat Hblock.
  set (N := length targets).
  assert (HN : 1 <= N) by (unfold N; destruct targets; [congruence | simpl; lia]).
  set (st0 := mkLoop ∅ 0 [] [] (Some (dest, [buf])) [] None).
  destruct (writeImages_sync env targets st0 Hne)
    as (st1 & Hsync & Hn1 & Hq1 & Hr1 & Hs1 & Hc1 & Htasks & Hlinks & Hend & Hd & He).
  fold N in Hn1, Hq1, Hr1, Htasks, Hlinks, Hend, Hd, He.
  cbn [st0 nextId microtasks reads stream calls app Nat.add] in *.
  assert (Hwrite : write env targets dest emptyLoop = (Normal tt, st1)).
  { unfold write, js_not. cbn [ToBoolean].
    replace (Z.of_nat (length targets) =? 0)%Z with false
      by (symmetry; apply Z.eqb_neq; fold N; lia).
    cbn [negb]. erewrite IO_bind_Normal by (unfold liftC; rewrite Hstat; reflexivity).
    unfold parentMissing, js_not. cbn [js_and ToBoolean negb].
    erewrite IO_bind_Normal by (unfold liftC; rewrite Hblock; reflexivity).
    erewrite IO_bind_Normal by reflexivity.
    erewrite IO_bind_Normal by reflexivity.
    exact Hsync. }
  (* the links, then the last three jobs *)
  destruct (drain_links env (N - 1) st1 (N + 1) (3 + (N + 2)) Hq1 Hlinks)
    as (st2 & Hdrain2 & Hq2 & Hn2 & Hr2 & Hs2 & Hc2 & Hframe2).
  replace (N + 1 + (N - 1)) with (2 * N) in Hq2, Hframe2 by lia.
  destruct (drain_tail env st2 (2 * N) (2 * N + 1) (2 * N + 2) (N + 2))
    as (st3 & Hdrain3 & Hq3 & Hc3 & Hn3 & Hr3 & Hs3 & Hframe3);
    try lia; try assumption; try (rewrite Hframe2 by lia; assumption).
  assert (Hall : drainAll env st1 = st3).
  { unfold drainAll. rewrite Hn1, Hq1. cbn [length].
    replace (2 * N + 3 + 1) with (N - 1 + (3 + (N + 2))) by lia.
    rewrite Hdrain2. exact Hdrain3. }
  (* the reads *)
  assert (Hreads : reads st3 = zip (ImageInfo.path <$> targets) (seq 0 N))
    by congruence.
  assert (Hlen : length (reads st3) = N).
  { rewrite Hreads, length_zip, length_fmap, length_seq. fold N. lia. }
  assert (Hpend : readsPending st3).
  { split.
    - rewrite Hreads, snd_zip by (rewrite length_fmap, length_seq; fold N; lia).
      apply NoDup_seq.
    - intros [path p] Hx. rewrite Hreads in Hx. apply elem_of_zip_r in Hx.
      apply elem_of_seq in Hx. cbn [snd].
      rewrite Hframe3, Hframe2 by lia. apply Htasks. lia. }
  assert (Hstream : stream st3 = Some (dest, [buf])) by congruence.
  assert (Hun : uncaught st3 = None).
  { rewrite <- Hall. unfold drainAll. rewrite drain_uncaught.
    change st1 with (Normal tt, st1).2. rewrite <- Hwrite. apply keeps_write. }
  set (n := readsCompleted env dest N).
  assert (Hn : n <= length (reads st3))
    by (unfold n, readsCompleted; destruct (streamError env dest); lia).
  destruct (completeAll_prefix env n (schedule env) st3 dest [buf] Hn Hq3 Hstream Hpend)
    as (Hq4 & Hc4 & Hr4 & Hs4).
  assert (Hchunks : stream (completeAll env n (schedule env) st3)
                    = Some (dest, buf :: payloads env
                                           (completionOrder n (schedule env)
                                              (ImageInfo.path <$> targets)))).
  { rewrite Hs4, completionOrder_fmap, Hreads.
    rewrite fst_zip by (rewrite length_fmap, length_seq; fold N; lia). reflexivity. }
  assert (Hcalls : calls (completeAll env n (schedule env) st3) = cbCalls env)
    by (rewrite Hc4, Hc3, Hc2, Hc1; reflexivity).
  assert (Hrun : run env (write env targets dest)
                 = (Normal tt,
                    match streamError env dest with
                    | None => completeAll env n (schedule env) st3
                    | Some e => setUncaught (Some e) (completeAll env n (schedule env) st3)
                    end)).
  { unfold run. rewrite Hwrite, Hall. unfold streamFailure. rewrite Hstream, Hlen.
    unfold n, readsCompleted. destruct (streamError env dest); reflexivity. }
  rewrite Hrun. eexists. split; [reflexivity|].
  destruct (streamError env dest) as [e|]; loop_simpl.
  - repeat split; try assumption. lia.
  - rewrite completeAll_uncaught. repeat split; try assumption. lia.
Qed.


End Run.

(** * The claims *)

Section Claims.

Import IcoEditor EventLoop.

(** ** Helpers *)

Lemma headerBlock_example :
  headerBlock (heap (exampleEnv [])) exampleTargets = Normal exampleBlock.
Proof. vm_compute. reflexivity. Qed.

Lemma get_app_l (buf rest : Buffer.t) i :
  0 <= i < Buffer.length buf -> Buffer.get (buf ++ rest) i = Buffer.get buf i.
Proof.
  unfold Buffer.get, Buffer.length. intros Hi.
  rewrite lookup_app_l by lia. reflexivity.
Qed.

Lemma readHeader_app (buf rest : Buffer.t) :
  6 <= Buffer.length buf -> readHeader (buf ++ rest) = readHeader buf.
Proof.
  intros Hlen.
  assert (Hlen' : 6 <= Buffer.length (buf ++ rest))
    by (unfold Buffer.length in *; rewrite length_app; lia).
  unfold readHeader.
  rewrite !(readUInt16LE_ok (buf ++ rest)), !(readUInt16LE_ok buf) by lia.
  rewrite !get_app_l by lia. reflexivity.
Qed.

Lemma run_throw env (main : IO unit) e :
  main emptyLoop = (Throw e, emptyLoop) -> run env main = (Throw e, emptyLoop).
Proof. intros H. unfold run. rewrite H. reflexivity. Qed.

(** The synchronous part of [write], by cases on what stops it. *)
Lemma write_sync env targets dest :
  (targets = [] /\
     write env targets dest emptyLoop
     = (cb env (Some errNoImages), mkLoop ∅ 0 [] [] None [Some errNoImages] None)) \/
  (targets <> [] /\ exists e,
     (statSync env (dirname env dest) = Throw e \/
      exists stat, statSync env (dirname env dest) = Normal stat /\
                   headerBlock (heap env) targets = Throw e) /\
     write env targets dest emptyLoop = (Throw e, emptyLoop)) \/
  (targets <> [] /\ exists stat buf,
     statSync env (dirname env dest) = Normal stat /\
     headerBlock (heap env) targets = Normal buf).
Proof.
  destruct targets as [|t targets]; [left; split; reflexivity|].
  right. set (ts := t :: targets).
  assert (Hne : ts <> []) by discriminate.
  assert (Hlen : js_not (VNumber (Z.of_nat (List.length ts))) = false).
  { unfold js_not. cbn [ToBoolean]. rewrite negb_involutive. apply Z.eqb_neq.
    unfold ts. rewrite length_cons. lia. }
  destruct (statSync env (dirname env dest)) as [stat|e] eqn:Hstat.
  - destruct (headerBlock (heap env) ts) as [buf|e] eqn:Hblock.
    + right. split; [exact Hne|]. eauto.
    + left. split; [exact Hne|]. exists e. split; [right; eauto|].
      unfold write. rewrite Hlen.
      erewrite IO_bind_Normal by (unfold liftC; rewrite Hstat; reflexivity).
      unfold parentMissing, js_not. cbn [js_and ToBoolean negb].
      unfold mbind, IO_bind, liftC. rewrite Hblock. reflexivity.
  - left. split; [exact Hne|]. exists e. split; [left; reflexivity|].
    unfold write. rewrite Hlen.
    unfold mbind, IO_bind, liftC. rewrite Hstat. reflexivity.
Qed.

(** With targets, the callback has not been called when [write] returns
    or throws. *)
Lemma write_sync_calls env targets dest :
  targets <> [] -> calls (write env targets dest emptyLoop).2 = [].
Proof.
  intros Hne.
  destruct (write_sync env targets dest)
    as [(-> & Hw) | [(_ & e & _ & Hw) | (_ & stat & buf & Hstat & Hblock)]].
  - congruence.
  - rewrite Hw. reflexivity.
  - assert (Hlen : js_not (VNumber (Z.of_nat (List.length targets))) = false).
    { unfold js_not. cbn [ToBoolean]. rewrite negb_involutive. apply Z.eqb_neq.
      destruct targets; [congruence | rewrite length_cons; lia]. }
    unfold write. rewrite Hlen.
    erewrite IO_bind_Normal by (unfold liftC; rewrite Hstat; reflexivity).
    unfold parentMissing, js_not. cbn [js_and ToBoolean negb].
    erewrite IO_bind_Normal by (unfold liftC; rewrite Hblock; reflexivity).
    erewrite IO_bind_Normal by reflexivity.
    erewrite IO_bind_Normal by reflexivity.
    destruct (writeImages_sync env targets (mkLoop ∅ 0 [] [] (Some (dest, [buf])) [] None) Hne)
      as (st1 & Hsync & _ & _ & _ & _ & Hc & _).
    match goal with
    | |- calls (?x).2 = _ =>
        change x with (writeImages env targets (mkLoop ∅ 0 [] [] (Some (dest, [buf])) [] None))
    end.
    rewrite Hsync. cbn [snd]. exact Hc.
Qed.

Lemma some_allowedSize size :
  (some (fun (exists_ : bool) sz =>
           if size =? sz then (true, true) else (exists_, false))
        IcoImageSizes false).1
  = allowedSize size.
Proof.
  unfold IcoImageSizes, allowedSize. cbn [some].
  repeat match goal with
    | |- context [size =? ?k] =>
        destruct (Z.eqb_spec size k) as [->|?]; [reflexivity|]
    end.
  cbn [fst]. symmetry. apply bool_decide_eq_false.
  rewrite !elem_of_cons, elem_of_nil. intuition lia.
Qed.

(** ** C1 *)

(** C1 (the code fails it). Writing one 16-pixel target and decoding its
    directory entry with [readDirectory] at offset 6 does not give back
    the width that was written: the entry was built with width 16, the
    decoded width is 0 (byte 0 of the header), while height, dataSize and
    dataOffset come back as written. *)
Theorem readDirectory_loses_width :
  ICODirectory.width (directoryOf (examplePng 16 20 "16.png") 22) = 16 /\
  (buf ← headerBlock (heap (exampleEnv [])) [examplePng 16 20 "16.png"];
   readDirectory buf 6)
  = Normal (ICODirectory.mk 0 16 0 0 1 32 20 22).
Proof. split; vm_compute; reflexivity. Qed.

(** ** C2 *)

(** C2. In the block [write] builds for [N] targets, the dataOffset
    decoded from entry [i] is [6 + 16 N] plus the byte lengths of targets
    [0 .. i-1]; it is [6 + 16 N] for entry 0, and for a later entry it is
    the dataOffset of the entry before plus that entry's dataSize. *)
Theorem dataOffset_running_sum heap targets buf i t :
  headerBlock heap targets = Normal buf ->
  targets !! i = Some t ->
  exists d,
    readDirectory buf (6 + 16 * Z.of_nat i) = Normal d /\
    ICODirectory.offset d
    = 6 + 16 * Z.of_nat (List.length targets) + sumSizes (take i targets) /\
    (i = 0%nat -> ICODirectory.offset d = 6 + 16 * Z.of_nat (List.length targets)) /\
    (forall j, i = S j ->
       exists d', readDirectory buf (6 + 16 * Z.of_nat j) = Normal d' /\
                  ICODirectory.offset d = ICODirectory.offset d' + ICODirectory.size d').
Proof.
  intros Hblock Ht.
  eexists. split; [exact (readDirectory_headerBlock heap targets buf i t Hblock Ht)|].
  cbn [ICODirectory.offset ICODirectory.size].
  split; [reflexivity|]. split.
  - intros ->. rewrite take_0. cbn [sumSizes foldr]. lia.
  - intros j ->.
    destruct (lookup_lt_is_Some_2 targets j) as [t' Ht'];
      [apply lookup_lt_Some in Ht; lia|].
    eexists. split; [exact (readDirectory_headerBlock heap targets buf j t' Hblock Ht')|].
    cbn [ICODirectory.offset ICODirectory.size].
    rewrite (sumSizes_take_S targets j t' Ht'). lia.
Qed.

Lemma dataOffset_running_sum_witness :
  exists d,
    readDirectory exampleBlock (6 + 16 * Z.of_nat 1) = Normal d /\
    ICODirectory.offset d
    = 6 + 16 * Z.of_nat (List.length exampleTargets) + sumSizes (take 1 exampleTargets) /\
    (1%nat = 0%nat ->
     ICODirectory.offset d = 6 + 16 * Z.of_nat (List.length exampleTargets)) /\
    (forall j, 1%nat = S j ->
       exists d', readDirectory exampleBlock (6 + 16 * Z.of_nat j) = Normal d' /\
                  ICODirectory.offset d = ICODirectory.offset d' + ICODirectory.size d').
Proof.
  exact (dataOffset_running_sum (heap (exampleEnv [])) exampleTargets exampleBlock 1
           (examplePng 256 2 "256.png") headerBlock_example eq_refl).
Defined.

(** ** C3 *)

(** C3. For targets whose fields fit (any number up to 65535, sizes
    that are not negative, byte lengths and payload offsets within 32
    bits), [write] builds its block, and in it the width byte and the
    height byte of every entry are the same value: 0 when the target's
    size is 256, the size itself when it is below 256. *)
Theorem width_height_bytes heap targets :
  blockFits targets ->
  exists buf,
    headerBlock heap targets = Normal buf /\
    forall i t, targets !! i = Some t ->
      exists w,
        Buffer.readUInt8 buf (6 + 16 * Z.of_nat i) = Normal w /\
        Buffer.readUInt8 buf (6 + 16 * Z.of_nat i + 1) = Normal w /\
        (ImageInfo.size t = 256 -> w = 0) /\
        (ImageInfo.size t < 256 -> w = ImageInfo.size t).
Proof.
  intros Hfit.
  destruct (headerBlock_fits heap targets Hfit) as (buf & Hblock).
  exists buf. split; [exact Hblock|]. intros i t Ht.
  destruct (headerBlock_width_height heap targets buf i t Hblock Ht) as (_ & Hw & Hh).
  eexists. split; [exact Hw|]. split; [exact Hh|].
  split; intros Hsz; destruct (Z.leb_spec 256 (ImageInfo.size t)); lia.
Qed.

Lemma width_height_bytes_witness :
  exists buf,
    headerBlock (heap (exampleEnv [])) exampleTargets = Normal buf /\
    forall i t, exampleTargets !! i = Some t ->
      exists w,
        Buffer.readUInt8 buf (6 + 16 * Z.of_nat i) = Normal w /\
        Buffer.readUInt8 buf (6 + 16 * Z.of_nat i + 1) = Normal w /\
        (ImageInfo.size t = 256 -> w = 0) /\
        (ImageInfo.size t < 256 -> w = ImageInfo.size t).
Proof.
  apply (width_height_bytes (heap (exampleEnv [])) exampleTargets).
  split; [vm_compute; discriminate|].
  intros i t Ht.
  destruct i as [|[|i]]; cbn in Ht; [injection Ht as <-|injection Ht as <-|discriminate];
    vm_compute; repeat split; discriminate.
Defined.

(** ** C4 *)

(** C4. [filter] returns the records whose size is one of 16, 24, 32, 48,
    64, 128 and 256, in their order and as often as they occur; for an
    empty list and for an absent one it returns the empty list. *)
Theorem filter_keeps_allowed_sizes :
  (forall images,
     IcoEditor.filter (Some images)
     = List.filter (fun image => allowedSize (ImageInfo.size image)) images) /\
  IcoEditor.filter (Some []) = [] /\
  IcoEditor.filter None = [].
Proof.
  split; [|split; reflexivity].
  intros images. unfold IcoEditor.filter.
  destruct images as [|image images]; [reflexivity|].
  cbn [List.length Z.of_nat Z.ltb Z.compare negb].
  apply List.filter_ext. intros x.
  rewrite <- some_allowedSize.
  destruct (some _ IcoImageSizes false). reflexivity.
Qed.

(** ** C5 *)

(** C5. Whenever a call of [write] with at least one target has sent
    bytes to the destination, [readHeader] decodes from them reserved 0,
    type 1 and a count equal to the number of targets. *)
Theorem readHeader_of_written env targets dest c st bytes :
  targets <> [] ->
  run env (write env targets dest) = (c, st) ->
  written st = Some bytes ->
  readHeader bytes = Normal (ICOHeader.mk 0 1 (Z.of_nat (List.length targets))).
Proof.
  intros Hne Hrun Hbytes.
  destruct (write_sync env targets dest)
    as [(-> & _) | [(_ & e & _ & Hw) | (_ & stat & buf & Hstat & Hblock)]].
  - congruence.
  - rewrite (run_throw env _ e Hw) in Hrun. injection Hrun as <- <-. discriminate Hbytes.
  - destruct (write_run env targets dest stat buf Hne Hstat Hblock)
      as (st' & Hrun' & _ & _ & _ & Hs & _).
    rewrite Hrun' in Hrun. injection Hrun as <- <-.
    unfold written in Hbytes. rewrite Hs in Hbytes. injection Hbytes as <-.
    apply headerBlock_inv in Hblock as (HN & Hlen & Hhdr & _).
    cbn [concat]. rewrite readHeader_app by lia. exact Hhdr.
Qed.

Lemma readHeader_of_written_witness :
  readHeader (exampleBlock ++ [137; 80; 78] ++ [71; 13])
  = Normal (ICOHeader.mk 0 1 (Z.of_nat (List.length exampleTargets))).
Proof.
  apply (readHeader_of_written (exampleEnv []) exampleTargets "/tmp/app.ico" (Normal tt)
           (run (exampleEnv []) (write (exampleEnv []) exampleTargets "/tmp/app.ico")).2).
  - discriminate.
  - vm_compute. reflexivity.
  - vm_compute. reflexivity.
Defined.

(** ** C6 *)

(** C6 (the code fails it). One target whose file cannot be read, into
    an existing directory: [write] returns, and when every job has run and
    the read has completed, the only call the callback has received is the
    one without an error. The read error ends in the task's promise
    (promise 0), rejected, and never reaches the callback. *)
Theorem read_failure_not_reported :
  readFile (exampleEnv []) "missing.png" = Throw enoent /\
  exists st,
    run (exampleEnv [])
        (write (exampleEnv []) [examplePng 16 20 "missing.png"] "/tmp/app.ico")
    = (Normal tt, st) /\
    calls st = [None] /\
    promises st !! 0%nat = Some (Promise.mkCell (Promise.Rejected enoent) []) /\
    microtasks st = [] /\ reads st = [].
Proof.
  split; [reflexivity|].
  eexists. split; [vm_compute; reflexivity|].
  repeat split.
Qed.

(** ** C7 *)

(** C7 (the code fails it). A destination whose parent directory does
    not exist: [statSync] throws, [write] ends with that exception, and
    the callback is never called (the final state is the initial one). *)
Theorem missing_parent_throws :
  statSync (exampleEnv []) (dirname (exampleEnv []) "/missing/app.ico") = Throw enoent /\
  run (exampleEnv []) (write (exampleEnv []) exampleTargets "/missing/app.ico")
  = (Throw enoent, emptyLoop).
Proof. split; vm_compute; reflexivity. Qed.

(** ** C8 *)

(** C8. With an empty target list, whatever the destination, the
    callback is called once, with an [Invalid arguments] error, and
    nothing else happens: no stream is opened and no read is started. *)
Theorem write_empty_targets env dest :
  run env (write env [] dest)
  = (cb env (Some errNoImages), mkLoop ∅ 0 [] [] None [Some errNoImages] None) /\
  isInvalidArguments errNoImages = true.
Proof. split; reflexivity. Qed.

(** ** C9 *)

(** C9 (the code fails it). Two targets whose reads complete in the
    opposite order: the second target's bytes reach the destination
    before the first target's, while the directory was written for the
    input order. When the reads complete in input order, so do the bytes. *)
Theorem payloads_in_completion_order :
  readFile (exampleEnv []) "16.png" = Normal [137; 80; 78] /\
  readFile (exampleEnv []) "256.png" = Normal [71; 13] /\
  (exists st,
     run (exampleEnv [1%nat]) (write (exampleEnv [1%nat]) exampleTargets "/tmp/app.ico")
     = (Normal tt, st) /\
     written st = Some (exampleBlock ++ [71; 13] ++ [137; 80; 78]) /\
     microtasks st = [] /\ reads st = []) /\
  (exists st,
     run (exampleEnv []) (write (exampleEnv []) exampleTargets "/tmp/app.ico")
     = (Normal tt, st) /\
     written st = Some (exampleBlock ++ [137; 80; 78] ++ [71; 13]) /\
     microtasks st = [] /\ reads st = []).
Proof.
  split; [reflexivity|]. split; [reflexivity|].
  split; (eexists; split; [vm_compute; reflexivity|]); repeat split.
Qed.

(** ** C10 *)

(** C10. The test on the parent directory is false for every [Stats]
    object, a directory's or not, so the branch behind it is never taken:
    with targets, the callback has not been called when [write] returns
    or throws. When [statSync] throws, [write] ends with that exception
    and the callback is never called. *)
Theorem parent_check_unreachable env targets dest :
  targets <> [] ->
  (forall stat, parentMissing stat = false) /\
  calls (write env targets dest emptyLoop).2 = [] /\
  (forall e, statSync env (dirname env dest) = Throw e ->
             run env (write env targets dest) = (Throw e, emptyLoop)).
Proof.
  intros Hne. split; [reflexivity|]. split; [now apply write_sync_calls|].
  intros e Hstat. apply run_throw.
  destruct (write_sync env targets dest)
    as [(-> & _) | [(_ & e' & [Hthrow | (stat & Hstat' & _)] & Hw)
                   | (_ & stat & buf & Hstat' & _)]];
    congruence.
Qed.

Lemma parent_check_unreachable_witness :
  (forall stat, parentMissing stat = false) /\
  calls (write (exampleEnv []) exampleTargets "/missing/app.ico" emptyLoop).2 = [] /\
  (forall e,
     statSync (exampleEnv []) (dirname (exampleEnv []) "/missing/app.ico") = Throw e ->
     run (exampleEnv []) (write (exampleEnv []) exampleTargets "/missing/app.ico")
     = (Throw e, emptyLoop)).
Proof.
  apply (parent_check_unreachable (exampleEnv []) exampleTargets "/missing/app.ico").
  discriminate.
Defined.

(** ** Further properties *)

(** X1. When there are at most 65535 targets, no size is negative and the
    last payload ends within 32 bits, [write] builds its header and
    directory block, and the block is [6 + 16 N] bytes long. *)
Theorem headerBlock_built heap targets :
  Z.of_nat (List.length targets) <= 65535 ->
  6 + 16 * Z.of_nat (List.length targets) + sumSizes targets <= 4294967295 ->
  Forall (fun t => 0 <= ImageInfo.size t /\ 0 <= Stats.size (ImageInfo.stat t)) targets ->
  exists buf,
    headerBlock heap targets = Normal buf /\
    Buffer.length buf = 6 + 16 * Z.of_nat (List.length targets).
Proof.
  intros HN Hsum Hall.
  destruct (headerBlock_ok heap targets HN Hsum Hall) as (buf & Hbuf).
  exists buf. split; [exact Hbuf|].
  apply headerBlock_inv in Hbuf as (_ & Hlen & _). exact Hlen.
Qed.

Lemma headerBlock_built_witness :
  exists buf,
    headerBlock (heap (exampleEnv [])) exampleTargets = Normal buf /\
    Buffer.length buf = 6 + 16 * Z.of_nat (List.length exampleTargets).
Proof.
  apply (headerBlock_built (heap (exampleEnv [])) exampleTargets).
  - vm_compute. discriminate.
  - vm_compute. discriminate.
  - repeat constructor; vm_compute; discriminate.
Defined.

(** X2. Every entry of the block decodes, with [readDirectory], to the
    height, colour count, reserved byte, planes, bits per pixel, dataSize
    and dataOffset it was written with. *)
Theorem readDirectory_other_fields heap targets buf i t :
  headerBlock heap targets = Normal buf ->
  targets !! i = Some t ->
  exists d,
    readDirectory buf (6 + 16 * Z.of_nat i) = Normal d /\
    ICODirectory.height d = (if 256 <=? ImageInfo.size t then 0 else ImageInfo.size t) /\
    ICODirectory.colors d = 0 /\ ICODirectory.reserved d = 0 /\
    ICODirectory.planes d = 1 /\ ICODirectory.bpp d = 32 /\
    ICODirectory.size d = Stats.size (ImageInfo.stat t) /\
    ICODirectory.offset d
    = 6 + 16 * Z.of_nat (List.length targets) + sumSizes (take i targets).
Proof.
  intros Hblock Ht.
  eexists. split; [exact (readDirectory_headerBlock heap targets buf i t Hblock Ht)|].
  repeat split.
Qed.

Lemma readDirectory_other_fields_witness :
  exists d,
    readDirectory exampleBlock (6 + 16 * Z.of_nat 1) = Normal d /\
    ICODirectory.height d
    = (if 256 <=? ImageInfo.size (examplePng 256 2 "256.png")
       then 0 else ImageInfo.size (examplePng 256 2 "256.png")) /\
    ICODirectory.colors d = 0 /\ ICODirectory.reserved d = 0 /\
    ICODirectory.planes d = 1 /\ ICODirectory.bpp d = 32 /\
    ICODirectory.size d = Stats.size (ImageInfo.stat (examplePng 256 2 "256.png")) /\
    ICODirectory.offset d
    = 6 + 16 * Z.of_nat (List.length exampleTargets) + sumSizes (take 1 exampleTargets).
Proof.
  exact (readDirectory_other_fields (heap (exampleEnv [])) exampleTargets exampleBlock 1
           (examplePng 256 2 "256.png") headerBlock_example eq_refl).
Defined.



End Claims.

(** * Further properties of the encoders and decoders *)

Section Codec.

Import IcoEditor.

Implicit Types (buf : Buffer.t) (d : ICODirectory.t).

Lemma checkOffset_inv offset ext len u :
  Buffer.checkOffset offset ext len = Normal u -> offset + ext <= len.
Proof.
  unfold Buffer.checkOffset.
  destruct (Z.ltb_spec len (offset + ext)); [discriminate | lia].
Qed.

Lemma readUInt16LE_inv buf off v :
  Buffer.readUInt16LE buf off = Normal v -> 0 <= off < 2 ^ 32 ->
  off + 2 <= Buffer.length buf.
Proof.
  unfold Buffer.readUInt16LE. intros H Hoff. rewrite toUint32_small in H by lia.
  bind_inv H. now apply checkOffset_inv in E.
Qed.

Lemma readUInt32LE_inv buf off v :
  Buffer.readUInt32LE buf off = Normal v -> 0 <= off < 2 ^ 32 ->
  off + 4 <= Buffer.length buf.
Proof.
  unfold Buffer.readUInt32LE. intros H Hoff. rewrite toUint32_small in H by lia.
  bind_inv H. now apply checkOffset_inv in E.
Qed.

(** X4. What [writeHeader] has written, [readHeader] reads back: reserved
    0 and the type and count given, whatever they are. The buffer keeps its
    length and every byte from offset 6 on. *)
Theorem writeHeader_readHeader buf type count buf' :
  writeHeader buf type count = Normal buf' ->
  readHeader buf' = Normal (ICOHeader.mk 0 type count) /\
  Buffer.length buf' = Buffer.length buf /\
  forall j, 6 <= j -> Buffer.get buf' j = Buffer.get buf j.
Proof.
  intros H.
  pose proof (writeHeader_inv _ _ _ _ H)
    as (Ht & Hc & Hlen & Hlen' & H0 & H1 & H2 & H3 & H4 & H5).
  split; [apply readHeader_of_bytes; try assumption; lia|].
  split; [exact Hlen'|].
  unfold writeHeader in H. do 2 bind_inv H.
  apply writeUInt16LE_inv in E as (_ & _ & ->); [|lia].
  apply writeUInt16LE_inv in E0 as (_ & _ & ->); [|lia].
  apply writeUInt16LE_inv in H as (_ & _ & ->); [|lia].
  intros j Hj. rewrite !get_set by (rewrite ?length_set; lia).
  decide_ifs; reflexivity.
Qed.

Lemma writeHeader_readHeader_witness :
  readHeader [0; 0; 2; 0; 3; 0; 7] = Normal (ICOHeader.mk 0 2 3) /\
  Buffer.length [0; 0; 2; 0; 3; 0; 7] = Buffer.length [9; 9; 9; 9; 9; 9; 7] /\
  forall j, 6 <= j ->
    Buffer.get [0; 0; 2; 0; 3; 0; 7] j = Buffer.get [9; 9; 9; 9; 9; 9; 7] j.
Proof.
  apply (writeHeader_readHeader [9; 9; 9; 9; 9; 9; 7] 2 3 [0; 0; 2; 0; 3; 0; 7]).
  vm_compute. reflexivity.
Defined.

(** X5. [writeHeader] returns exactly when the buffer has room for the six
    header bytes and type and count fit sixteen bits; otherwise it throws. *)
Theorem writeHeader_returns_iff buf type count :
  (exists buf', writeHeader buf type count = Normal buf') <->
  6 <= Buffer.length buf /\ 0 <= type <= 65535 /\ 0 <= count <= 65535.
Proof.
  split.
  - intros (buf' & H). apply writeHeader_inv in H. intuition lia.
  - intros (Hlen & Ht & Hc). unfold writeHeader.
    rewrite writeUInt16LE_ok, bind_ret by lia.
    rewrite writeUInt16LE_ok, bind_ret by (rewrite ?length_set; lia).
    rewrite writeUInt16LE_ok by (rewrite ?length_set; lia).
    eauto.
Qed.

(** X6. For an offset [off] with [0 <= off] and [off + 16 < 2 ^ 32] (the
    accessors reduce an offset modulo [2 ^ 32], other offsets are not
    covered): what [writeDirectory] has written at [off], [readDirectory]
    reads back at [off], with two exceptions the code makes: [reserved]
    comes back 0 whatever the record held, and [width] comes back only
    when [off] is 0; elsewhere it is byte 0 of the buffer. Bytes outside
    the sixteen of the entry are kept. *)
Theorem writeDirectory_readDirectory buf off d buf' :
  writeDirectory buf off d = Normal buf' ->
  0 <= off -> off + 16 < 2 ^ 32 ->
  readDirectory buf' off
  = Normal (ICODirectory.mk
              (if off =? 0 then ICODirectory.width d else Buffer.get buf 0)
              (ICODirectory.height d) (ICODirectory.colors d) 0
              (ICODirectory.planes d) (ICODirectory.bpp d)
              (ICODirectory.size d) (ICODirectory.offset d)) /\
  Buffer.length buf' = Buffer.length buf /\
  forall j, 0 <= j -> j < off \/ off + 16 <= j -> Buffer.get buf' j = Buffer.get buf j.
Proof.
  intros H Hoff Hmax.
  apply writeDirectory_inv in H as (Hr & Hlen & Hlen' & Hget); [|lia..].
  split; [|split; [exact Hlen'|]].
  - rewrite (readDirectory_of_bytes buf' off d); try assumption; try lia.
    + rewrite Hget by lia. destruct (Z.eqb_spec off 0) as [->|Hne].
      * cbn [Z.leb Z.ltb Z.compare andb Z.add Z.sub Z.opp].
        destruct Hr as (Hw & _). unfold byteOf, encodeDirectory.
        cbn [Z.to_nat lookup list_lookup default from_option id].
        rewrite land_255, Z.mod_small by lia. reflexivity.
      * decide_ifs. reflexivity.
    + intros k Hk. rewrite Hget by lia. decide_ifs. f_equal. lia.
  - intros j Hj Hout. rewrite Hget by lia. decide_ifs; reflexivity.
Qed.

Lemma writeDirectory_readDirectory_witness :
  readDirectory
    [11; 22; 16; 16; 0; 0; 1; 0; 32; 0; 20; 0; 0; 0; 38; 0; 0; 0; 209; 220] 2
  = Normal (ICODirectory.mk
              (if 2 =? 0 then ICODirectory.width exampleDirectory
               else Buffer.get exampleBytes 0)
              (ICODirectory.height exampleDirectory) (ICODirectory.colors exampleDirectory) 0
              (ICODirectory.planes exampleDirectory) (ICODirectory.bpp exampleDirectory)
              (ICODirectory.size exampleDirectory) (ICODirectory.offset exampleDirectory)) /\
  Buffer.length [11; 22; 16; 16; 0; 0; 1; 0; 32; 0; 20; 0; 0; 0; 38; 0; 0; 0; 209; 220]
  = Buffer.length exampleBytes /\
  forall j, 0 <= j -> j < 2 \/ 2 + 16 <= j ->
    Buffer.get [11; 22; 16; 16; 0; 0; 1; 0; 32; 0; 20; 0; 0; 0; 38; 0; 0; 0; 209; 220] j
    = Buffer.get exampleBytes j.
Proof.
  apply (writeDirectory_readDirectory exampleBytes 2 exampleDirectory).
  - vm_compute. reflexivity.
  - lia.
  - lia.
Defined.

(** X7. For an offset [off] with [0 <= off] and [off + 16 < 2 ^ 32] (the
    accessors reduce an offset modulo [2 ^ 32], other offsets are not
    covered): [writeDirectory] returns exactly when the sixteen bytes fit
    in the buffer and every field but [reserved] fits its width;
    otherwise it throws. *)
Theorem writeDirectory_returns_iff buf off d :
  0 <= off -> off + 16 < 2 ^ 32 ->
  (exists buf', writeDirectory buf off d = Normal buf') <->
  dirInRange d /\ off + 16 <= Buffer.length buf.
Proof.
  intros Hoff Hmax. split.
  - intros (buf' & H). apply writeDirectory_inv in H; [|lia..]. intuition.
  - intros ((Hw & Hh & Hc & Hp & Hb & Hs & Ho) & Hlen).
    unfold writeDirectory.
    rewrite writeUInt8_ok, bind_ret by lia.
    rewrite writeUInt8_ok, bind_ret by (rewrite ?length_set; lia).
    rewrite writeUInt8_ok, bind_ret by (rewrite ?length_set; lia).
    rewrite writeUInt8_ok, bind_ret by (rewrite ?length_set; lia).
    rewrite writeUInt16LE_ok, bind_ret by (rewrite ?length_set; lia).
    rewrite writeUInt16LE_ok, bind_ret by (rewrite ?length_set; lia).
    rewrite writeUInt32LE_ok, bind_ret by (rewrite ?length_set; lia).
    rewrite writeUInt32LE_ok by (rewrite ?length_set; lia).
    eauto.
Qed.

Lemma writeDirectory_returns_iff_witness :
  (exists buf', writeDirectory exampleBytes 2 exampleDirectory = Normal buf') <->
  dirInRange exampleDirectory /\ 2 + 16 <= Buffer.length exampleBytes.
Proof.
  apply (writeDirectory_returns_iff exampleBytes 2 exampleDirectory); lia.
Defined.

(** X8. [readHeader] returns exactly when the buffer holds at least six
    bytes; on a shorter one it throws. *)
Theorem readHeader_returns_iff buf :
  (exists h, readHeader buf = Normal h) <-> 6 <= Buffer.length buf.
Proof.
  split.
  - intros (h & H). unfold readHeader in H. do 3 bind_inv H.
    apply readUInt16LE_inv in E1; lia.
  - intros Hlen. unfold readHeader.
    rewrite !readUInt16LE_ok by lia. cbn. eauto.
Qed.

(** X9. For an offset [off] with [0 <= off] and [off + 16 <= 2 ^ 32] (the
    accessors reduce an offset modulo [2 ^ 32], other offsets are not
    covered): [readDirectory] returns exactly when the sixteen bytes at
    [off] lie within the buffer; otherwise it throws. *)
Theorem readDirectory_returns_iff buf off :
  0 <= off -> off + 16 <= 2 ^ 32 ->
  (exists d, readDirectory buf off = Normal d) <-> off + 16 <= Buffer.length buf.
Proof.
  intros Hoff Hmax. split.
  - intros (d & H). unfold readDirectory in H. do 8 bind_inv H.
    apply readUInt32LE_inv in E6; lia.
  - intros Hlen. unfold readDirectory.
    rewrite !readUInt8_ok, !readUInt16LE_ok, !readUInt32LE_ok by lia. cbn. eauto.
Qed.

Lemma readDirectory_returns_iff_witness :
  (exists d, readDirectory exampleBlock 22 = Normal d) <->
  22 + 16 <= Buffer.length exampleBlock.
Proof.
  apply (readDirectory_returns_iff exampleBlock 22); lia.
Defined.

End Codec.

(** * Further properties of the block, of [write] and of [filter] *)

Section BlockMore.

Import IcoEditor.

(** X10. [write] can build its header and directory block exactly when
    there are at most 65535 targets and, for each of them, the size is not
    negative, the byte length fits 32 bits and so does the offset of its
    payload; otherwise building the block throws. *)
Theorem headerBlock_returns_iff heap targets :
  (exists buf, headerBlock heap targets = Normal buf) <-> blockFits targets.
Proof.
  split.
  - intros (buf & H). exact (headerBlock_fits_inv heap targets buf H).
  - apply headerBlock_fits.
Qed.

End BlockMore.

Section BlockBytes.

Import IcoEditor.

Lemma length_encodeDirectory d : List.length (encodeDirectory d) = 16%nat.
Proof. reflexivity. Qed.

Lemma length_directories off (l : list ImageInfo.t) :
  List.length (flat_map encodeDirectory (directoriesFrom off l))
  = (16 * List.length l)%nat.
Proof.
  revert off. induction l as [|a l IH]; intros off; [reflexivity|].
  cbn [directoriesFrom flat_map]. rewrite length_app, IH, length_encodeDirectory.
  cbn [List.length]. lia.
Qed.

Lemma lookup_directories (l : list ImageInfo.t) :
  forall off i t (k : nat),
    l !! i = Some t -> (k < 16)%nat ->
    flat_map encodeDirectory (directoriesFrom off l) !! (16 * i + k)%nat
    = encodeDirectory (directoryOf t (off + sumSizes (take i l))) !! k.
Proof.
  induction l as [|a l IH]; intros off i t k Ht Hk; [rewrite lookup_nil in Ht; discriminate|].
  cbn [directoriesFrom flat_map]. destruct i as [|i].
  - injection Ht as ->. rewrite take_0. cbn [sumSizes foldr]. rewrite Z.add_0_r.
    rewrite lookup_app_l by (rewrite length_encodeDirectory; lia).
    f_equal.
  - simpl in Ht. rewrite lookup_app_r by (rewrite length_encodeDirectory; lia).
    rewrite length_encodeDirectory.
    replace (16 * S i + k - 16)%nat with (16 * i + k)%nat by lia.
    rewrite (IH _ i t k Ht Hk). simpl. do 3 f_equal. lia.
Qed.

(** Bytes 0 to 5 of the block. *)
Lemma headerBlock_header heap targets buf :
  headerBlock heap targets = Normal buf ->
  forall j, 0 <= j < 6 ->
    Buffer.get buf j
    = Buffer.get (encodeHeader 1 (Z.of_nat (List.length targets))) j.
Proof.
  unfold headerBlock, writeDirectories, IcoSpec.headerSize, IcoSpec.directorySize.
  set (N := Z.of_nat (List.length targets)).
  intros H. bind_inv H. bind_inv H. injection H as <-.
  apply writeHeader_inv in E
    as (_ & Hc & _ & Hlen & H0 & H1 & H2 & H3 & H4 & H5).
  rewrite length_alloc in Hlen by lia.
  apply forEach_directories in E0 as (_ & Hframe & _); simpl in *; fold N; [|lia..].
  intros j Hj. rewrite Hframe by lia.
  assert (Hcases : j = 0 \/ j = 1 \/ j = 2 \/ j = 3 \/ j = 4 \/ j = 5) by lia.
  destruct_or!; subst j; assumption.
Qed.

(** X12. The block [write] builds is the six header bytes (reserved 0,
    type 1, the count) followed by the sixteen bytes of each target's
    entry, in input order, and nothing else: no byte of the memory
    [new Buffer] returned is left in it. *)
Theorem headerBlock_bytes heap targets buf :
  headerBlock heap targets = Normal buf -> buf = encodeBlock targets.
Proof.
  intros H.
  pose proof (headerBlock_header heap targets buf H) as Hhdr.
  pose proof (headerBlock_inv heap targets buf H) as (HN & Hlen & _ & _ & Hentries).
  set (N := List.length targets) in *.
  assert (Hlen' : List.length buf = (6 + 16 * N)%nat)
    by (unfold Buffer.length in Hlen; lia).
  assert (Hlenb : List.length (encodeBlock targets) = (6 + 16 * N)%nat).
  { unfold encodeBlock. rewrite length_app, length_directories. reflexivity. }
  apply (list_eq_same_length _ _ (6 + 16 * N)%nat); [exact Hlenb | exact Hlen' |].
  intros n x y Hn Hx Hy.
  assert (Hgx : Buffer.get buf (Z.of_nat n) = x)
    by (unfold Buffer.get; rewrite Nat2Z.id, Hx; reflexivity).
  assert (Hgy : Buffer.get (encodeBlock targets) (Z.of_nat n) = y)
    by (unfold Buffer.get; rewrite Nat2Z.id, Hy; reflexivity).
  rewrite <- Hgx, <- Hgy.
  destruct (Nat.lt_ge_cases n 6) as [Hlt|Hge].
  - rewrite Hhdr by lia. unfold encodeBlock, Buffer.get. fold N.
    rewrite Nat2Z.id. rewrite lookup_app_l by (cbn; lia). reflexivity.
  - set (i := ((n - 6) / 16)%nat). set (k := ((n - 6) mod 16)%nat).
    assert (Hnk : n = (6 + (16 * i + k))%nat).
    { pose proof (Nat.div_mod_eq (n - 6) 16). unfold i, k. lia. }
    assert (Hk : (k < 16)%nat) by (apply Nat.mod_upper_bound; lia).
    assert (Hi : (i < N)%nat) by lia.
    destruct (lookup_lt_is_Some_2 targets i Hi) as [t Ht].
    destruct (Hentries i t Ht) as (_ & Hb).
    replace (Z.of_nat n) with (6 + 16 * Z.of_nat i + Z.of_nat k) by lia.
    rewrite Hb by lia.
    unfold encodeBlock, Buffer.get, byteOf. fold N.
    replace (Z.to_nat (6 + 16 * Z.of_nat i + Z.of_nat k)) with (6 + (16 * i + k))%nat by lia.
    rewrite lookup_app_r by (cbn; lia).
    replace (6 + (16 * i + k) - List.length (encodeHeader 1 (Z.of_nat N)))%nat
      with (16 * i + k)%nat by (cbn; lia).
    rewrite (lookup_directories targets _ i t k Ht Hk), Nat2Z.id. reflexivity.
Qed.

Lemma headerBlock_bytes_witness : exampleBlock = encodeBlock exampleTargets.
Proof.
  exact (headerBlock_bytes (heap (exampleEnv [])) exampleTargets exampleBlock
           headerBlock_example).
Defined.

End BlockBytes.

Section WriteMore.

Import IcoEditor EventLoop.
Local Open Scope Z_scope.

(** X11. With targets and a parent directory [statSync] accepts, when some
    field of the block does not fit, [write] ends with an exception before
    it opens the destination: the callback is not called, no stream is
    opened and no file is read. *)
Theorem write_throws_when_block_does_not_fit env targets dest stat :
  targets <> [] ->
  statSync env (dirname env dest) = Normal stat ->
  ~ blockFits targets ->
  exists e, run env (write env targets dest) = (Throw e, emptyLoop).
Proof.
  intros Hne Hstat Hfit.
  destruct (write_sync env targets dest)
    as [(-> & _) | [(_ & e & _ & Hw) | (_ & stat' & buf & _ & Hblock)]].
  - congruence.
  - exists e. now apply run_throw.
  - exfalso. apply Hfit. exact (headerBlock_fits_inv (heap env) targets buf Hblock).
Qed.

Lemma write_throws_when_block_does_not_fit_witness :
  exists e,
    run (exampleEnv []) (write (exampleEnv []) exampleHuge "/tmp/app.ico")
    = (Throw e, emptyLoop).
Proof.
  apply (write_throws_when_block_does_not_fit (exampleEnv []) exampleHuge "/tmp/app.ico"
           (Stats.mk 4096 (fun _ => true))).
  - discriminate.
  - reflexivity.
  - intros (_ & H). destruct (H 0%nat _ eq_refl) as (_ & (_ & Hle) & _).
    simpl in Hle. lia.
Defined.

(** X16. With targets, a parent directory [statSync] accepts and a block
    that can be built, when [write] returns the destination has been
    opened and holds the block and nothing else, one read has been started
    per target, in input order, and the callback has not been called yet. *)
Theorem write_returns_with_reads_started env targets dest stat buf :
  targets <> [] ->
  statSync env (dirname env dest) = Normal stat ->
  headerBlock (heap env) targets = Normal buf ->
  exists st,
    write env targets dest emptyLoop = (Normal tt, st) /\
    stream st = Some (dest, [buf]) /\
    (reads st).*1 = ImageInfo.path <$> targets /\
    calls st = [].
Proof.
  intros Hne Hstat Hblock.
  destruct (writeImages_sync env targets (mkLoop ∅ 0 [] [] (Some (dest, [buf])) [] None) Hne)
    as (st1 & Hsync & _ & _ & Hr & Hs & Hc & _).
  exists st1. split; [|split; [exact Hs|split; [|exact Hc]]].
  - assert (Hlen : js_not (VNumber (Z.of_nat (List.length targets))) = false).
    { unfold js_not. cbn [ToBoolean]. rewrite negb_involutive. apply Z.eqb_neq.
      destruct targets; [congruence | rewrite length_cons; lia]. }
    unfold write. rewrite Hlen.
    erewrite IO_bind_Normal by (unfold liftC; rewrite Hstat; reflexivity).
    unfold parentMissing, js_not. cbn [js_and ToBoolean negb].
    erewrite IO_bind_Normal by (unfold liftC; rewrite Hblock; reflexivity).
    erewrite IO_bind_Normal by reflexivity.
    erewrite IO_bind_Normal by reflexivity.
    exact Hsync.
  - rewrite Hr. cbn [reads app nextId].
    apply fst_zip. rewrite length_fmap, length_seq. lia.
Qed.

Lemma write_returns_with_reads_started_witness :
  exists st,
    write (exampleEnv [1%nat]) exampleTargets "/tmp/app.ico" emptyLoop = (Normal tt, st) /\
    stream st = Some ("/tmp/app.ico", [exampleBlock]) /\
    (reads st).*1 = ImageInfo.path <$> exampleTargets /\
    calls st = [].
Proof.
  apply (write_returns_with_reads_started (exampleEnv [1%nat]) exampleTargets
           "/tmp/app.ico" (Stats.mk 4096 (fun _ => true)) exampleBlock).
  - discriminate.
  - reflexivity.
  - vm_compute. reflexivity.
Defined.






End WriteMore.

Section FilterMore.

Import IcoEditor.

Lemma filter_Some (images : list ImageInfo.t) :
  IcoEditor.filter (Some images)
  = List.filter (fun image => allowedSize (ImageInfo.size image)) images.
Proof.
  unfold IcoEditor.filter.
  destruct images as [|image images]; [reflexivity|].
  cbn [List.length Z.of_nat Z.ltb Z.compare negb].
  apply List.filter_ext. intros x.
  rewrite <- some_allowedSize.
  destruct (some _ IcoImageSizes false). reflexivity.
Qed.

Lemma filter_filter_same {A} (f : A -> bool) (l : list A) :
  List.filter f (List.filter f l) = List.filter f l.
Proof.
  induction l as [|a l IH]; [reflexivity|].
  cbn [List.filter]. destruct (f a) eqn:Hf; [|exact IH].
  cbn [List.filter]. rewrite Hf, IH. reflexivity.
Qed.

(** X14. Filtering twice is filtering once; what [filter] returns has
    only allowed sizes and is never longer than its input, and a list whose
    sizes are all allowed comes back unchanged. *)
Theorem filter_idempotent (images : list ImageInfo.t) :
  IcoEditor.filter (Some (IcoEditor.filter (Some images))) = IcoEditor.filter (Some images) /\
  Forall (fun image => ImageInfo.size image ∈ IcoImageSizes) (IcoEditor.filter (Some images)) /\
  (List.length (IcoEditor.filter (Some images)) <= List.length images)%nat /\
  (Forall (fun image => ImageInfo.size image ∈ IcoImageSizes) images ->
   IcoEditor.filter (Some images) = images).
Proof.
  rewrite !filter_Some. split; [apply filter_filter_same|]. split; [|split].
  - apply Forall_forall. intros x Hx. apply list_elem_of_In in Hx.
    apply List.filter_In in Hx as (_ & Hx).
    unfold allowedSize in Hx. now apply bool_decide_eq_true in Hx.
  - apply List.filter_length_le.
  - intros Hall. induction Hall as [|x l Hx Hall IH]; [reflexivity|].
    cbn [List.filter]. unfold allowedSize at 1.
    rewrite (bool_decide_eq_true_2 _ Hx), IH. reflexivity.
Qed.

(** X15. For the targets [filter] keeps, the width byte of the directory
    entry fits a byte, equals the height byte, is 0 only for size 256, and
    tells the sizes apart: two kept targets get the same byte only when
    they have the same size. *)
Theorem filtered_width_tells_size (images : list ImageInfo.t) t t' off off' :
  t ∈ IcoEditor.filter (Some images) ->
  t' ∈ IcoEditor.filter (Some images) ->
  let w := ICODirectory.width (directoryOf t off) in
  let w' := ICODirectory.width (directoryOf t' off') in
  0 <= w <= 255 /\
  w = ICODirectory.height (directoryOf t off) /\
  (w = 0 <-> ImageInfo.size t = 256) /\
  (w = w' <-> ImageInfo.size t = ImageInfo.size t').
Proof.
  rewrite !filter_Some. intros Ht Ht'.
  apply list_elem_of_In, List.filter_In in Ht as (_ & Ht).
  apply list_elem_of_In, List.filter_In in Ht' as (_ & Ht').
  unfold allowedSize in Ht, Ht'.
  apply bool_decide_eq_true in Ht, Ht'.
  cbn [directoryOf ICODirectory.width ICODirectory.height].
  rewrite !elem_of_cons, elem_of_nil in Ht, Ht'.
  destruct (Z.leb_spec 256 (ImageInfo.size t)), (Z.leb_spec 256 (ImageInfo.size t'));
    repeat split; try lia.
Qed.

Lemma filtered_width_tells_size_witness :
  let w := ICODirectory.width (directoryOf (examplePng 16 3 "16.png") 38) in
  let w' := ICODirectory.width (directoryOf (examplePng 256 2 "256.png") 41) in
  0 <= w <= 255 /\
  w = ICODirectory.height (directoryOf (examplePng 16 3 "16.png") 38) /\
  (w = 0 <-> ImageInfo.size (examplePng 16 3 "16.png") = 256) /\
  (w = w' <->
   ImageInfo.size (examplePng 16 3 "16.png") = ImageInfo.size (examplePng 256 2 "256.png")).
Proof.
  apply (filtered_width_tells_size exampleTargets).
  - vm_compute. repeat constructor.
  - vm_compute. repeat constructor.
Defined.

End FilterMore.

Section Schedule.

(** With an empty schedule the reads complete in the order they were
    started. *)
Lemma completionOrder_nil {A} (l : list A) :
  completionOrder (List.length l) [] l = l.
Proof.
  induction l as [|a l IH]; [reflexivity|].
  cbn [List.length completionOrder hd tail]. rewrite Nat.Div0.mod_0_l.
  cbn [lookup list_lookup delete list_delete]. now rewrite IH.
Qed.

End Schedule.

Section Order.

Import IcoEditor EventLoop.




Lemma readHeader_ext (b1 b2 : Buffer.t) :
  Buffer.length b1 = Buffer.length b2 ->
  (forall j, 0 <= j < 6 -> Buffer.get b1 j = Buffer.get b2 j) ->
  readHeader b1 = readHeader b2.
Proof.
  intros Hlen Hget. unfold readHeader, Buffer.readUInt16LE.
  rewrite !toUint32_small by lia. rewrite Hlen.
  change (0 + 1) with 1. change (2 + 1) with 3. change (4 + 1) with 5.
  rewrite (Hget 0), (Hget 1), (Hget 2), (Hget 3), (Hget 4), (Hget 5) by lia.
  reflexivity.
Qed.

(** X18. [writeDirectories] changes the directory table and nothing else:
    the buffer keeps its length, its six header bytes (so [readHeader]
    gives what it gave before) and every byte after the table. *)
Theorem writeDirectories_keeps_the_rest (buf : Buffer.t) targets buf' :
  writeDirectories buf targets = Normal buf' ->
  6 + 16 * Z.of_nat (List.length targets) < 2 ^ 32 ->
  Buffer.length buf' = Buffer.length buf /\
  readHeader buf' = readHeader buf /\
  forall j, 0 <= j -> j < 6 \/ 6 + 16 * Z.of_nat (List.length targets) <= j ->
            Buffer.get buf' j = Buffer.get buf j.
Proof.
  unfold writeDirectories, IcoSpec.headerSize, IcoSpec.directorySize.
  intros H Hmax. bind_inv H. injection H as <-.
  apply forEach_directories in E as (Hlen & Hframe & _); cbn [dirOffset dsBuffer] in *;
    [|lia..].
  split; [exact Hlen|]. split; [|exact Hframe].
  apply readHeader_ext; [exact Hlen|]. intros j Hj. apply Hframe; lia.
Qed.

Lemma writeDirectories_keeps_the_rest_witness :
  Buffer.length
    [11; 22; 33; 44; 55; 66; 32; 32; 0; 0; 1; 0; 32; 0; 7; 0; 0; 0; 22; 0; 0; 0; 253; 9]
  = Buffer.length (exampleBytes ++ [231; 242; 253; 9]) /\
  readHeader
    [11; 22; 33; 44; 55; 66; 32; 32; 0; 0; 1; 0; 32; 0; 7; 0; 0; 0; 22; 0; 0; 0; 253; 9]
  = readHeader (exampleBytes ++ [231; 242; 253; 9]) /\
  forall j, 0 <= j ->
    j < 6 \/ 6 + 16 * Z.of_nat (List.length [examplePng 32 7 "a.png"]) <= j ->
    Buffer.get
      [11; 22; 33; 44; 55; 66; 32; 32; 0; 0; 1; 0; 32; 0; 7; 0; 0; 0; 22; 0; 0; 0; 253; 9] j
    = Buffer.get (exampleBytes ++ [231; 242; 253; 9]) j.
Proof.
  apply (writeDirectories_keeps_the_rest (exampleBytes ++ [231; 242; 253; 9])
           [examplePng 32 7 "a.png"]).
  - vm_compute. reflexivity.
  - vm_compute. reflexivity.
Defined.

End Order.

Section Edge.

Import IcoEditor EventLoop.

(** X19. A callback that throws when it is called without an error is
    called a second time, with the exception it threw: [write] has
    returned normally, and the callback has been called twice. *)
Theorem throwing_callback_called_again env targets dest stat buf e :
  targets <> [] ->
  statSync env (dirname env dest) = Normal stat ->
  headerBlock (heap env) targets = Normal buf ->
  cb env None = Throw e ->
  exists st,
    run env (write env targets dest) = (Normal tt, st) /\
    calls st = [None; Some e].
Proof.
  intros Hne Hstat Hblock Hcb.
  destruct (write_run env targets dest stat buf Hne Hstat Hblock)
    as (st & Hrun & Hcalls & _).
  exists st. split; [exact Hrun|].
  rewrite Hcalls. unfold cbCalls. rewrite Hcb. reflexivity.
Qed.

Lemma throwing_callback_called_again_witness :
  exists st,
    run exampleEnvThrowing (write exampleEnvThrowing exampleTargets "/tmp/app.ico")
    = (Normal tt, st) /\
    calls st = [None; Some (mkError PlainError "callback failed")].
Proof.
  apply (throwing_callback_called_again exampleEnvThrowing exampleTargets "/tmp/app.ico"
           (Stats.mk 4096 (fun _ => true)) exampleBlock).
  - discriminate.
  - reflexivity.
  - vm_compute. reflexivity.
  - reflexivity.
Defined.



(** X20. A size of 256 or more is never rejected for being too large:
    for targets whose other fields fit, whatever their sizes from 0 up,
    [write] builds its block, and the width and height bytes of every
    entry of size 256 or more are both 0. *)
Theorem oversize_stored_as_zero heap targets :
  blockFits targets ->
  exists buf,
    headerBlock heap targets = Normal buf /\
    forall i t, targets !! i = Some t -> 256 <= ImageInfo.size t ->
      Buffer.readUInt8 buf (6 + 16 * Z.of_nat i) = Normal 0 /\
      Buffer.readUInt8 buf (6 + 16 * Z.of_nat i + 1) = Normal 0.
Proof.
  intros Hfit.
  destruct (headerBlock_fits heap targets Hfit) as (buf & Hblock).
  exists buf. split; [exact Hblock|]. intros i t Ht Hsz.
  destruct (headerBlock_width_height heap targets buf i t Hblock Ht) as (_ & Hw & Hh).
  rewrite Hw, Hh.
  destruct (Z.leb_spec 256 (ImageInfo.size t)); [|lia]. split; reflexivity.
Qed.

Lemma oversize_stored_as_zero_witness :
  exists buf,
    headerBlock (heap (exampleEnv [])) exampleOversize = Normal buf /\
    forall i t, exampleOversize !! i = Some t -> 256 <= ImageInfo.size t ->
      Buffer.readUInt8 buf (6 + 16 * Z.of_nat i) = Normal 0 /\
      Buffer.readUInt8 buf (6 + 16 * Z.of_nat i + 1) = Normal 0.
Proof.
  apply (oversize_stored_as_zero (heap (exampleEnv [])) exampleOversize).
  split; [vm_compute; discriminate|].
  intros i t Ht.
  destruct i as [|i]; cbn in Ht; [injection Ht as <-|discriminate];
    vm_compute; repeat split; discriminate.
Defined.

End Edge.
